(** * heimdallr-client: resolution and coordination engine

    A shallow embedding of [heimdallr_client/heimdallr_client.py]: the
    lock table ([lock_search], [release_lock], [check_lock]), the endpoint
    registry ([find_rpc], [poll_rpc]), the artifact locator
    ([search_history], [search_idb_path], [search_idb]) and the coordinator
    ([run], [start]).

    Modelling conventions.
    - Python exceptions, [sys.exit] and normal return are the three ways a
      call can end; they are the constructors [Raise], [Exit] and [Ret] of
      [outcome].  [NoFuel] is not a Python behaviour: it marks a loop of the
      model that used up its iteration budget.
    - Everything on disk that the client or another process can change is a
      field of [world]; the client's functions are state transformers over
      it.  What other processes do is the [environ] record: it acts while
      the client sleeps and when the client spawns the host application.
    - [time.time()] is the field [now], counted in half time units (the
      length of every sleep in the source); only [time.sleep] advances it.
    - Paths are POSIX strings in normal form, so [Path(s)] is [s]. *)

From Stdlib Require Import List String Ascii ZArith NArith Bool Lia.
From Stdlib Require Import DecimalString DecimalN.
Import ListNotations.

Local Open Scope string_scope.
Local Open Scope Z_scope.

(** ** Python values and control flow *)

Module Py.

Inductive exn : Type :=
| JSONDecodeError
| KeyError (key : string)
| TypeError
| AttributeError
| NameError (name : string)
| FileNotFoundError (path : string)
| OSError
| CalledProcessError
| RuntimeError (msg : string)
| TimeoutError (msg : string).

Inductive outcome (A : Type) : Type :=
| Ret (a : A)
| Raise (e : exn)
| Exit (code : Z)
| NoFuel.

Arguments Ret {A} a.
Arguments Raise {A} e.
Arguments Exit {A} code.
Arguments NoFuel {A}.

(** JSON documents as [json.load] returns them. *)
#[local] Set Warnings "-register-all".
Inductive json : Type :=
| JNull
| JBool (b : bool)
| JNum (z : Z)
| JStr (s : string)
| JArr (items : list json)
| JObj (members : list (string * json)).

(** Truth value of a loaded JSON document. *)
Definition truthy (j : json) : bool :=
  match j with
  | JNull => false
  | JBool b => b
  | JNum z => negb (z =? 0)
  | JStr s => negb (s =? "")%string
  | JArr l => match l with [] => false | _ => true end
  | JObj m => match m with [] => false | _ => true end
  end.

(** [len(j)]: numbers, booleans and null have no length. *)
Definition len (j : json) : outcome nat :=
  match j with
  | JStr s => Ret (String.length s)
  | JArr l => Ret (List.length l)
  | JObj m => Ret (List.length m)
  | _ => Raise TypeError
  end.

(** Truth value of an optional string: [None] and [""] are false. *)
Definition truthy_str (s : option string) : bool :=
  match s with
  | Some x => negb (x =? "")%string
  | None => false
  end.

Definition opt_eqb (a b : option string) : bool :=
  match a, b with
  | Some x, Some y => (x =? y)%string
  | None, None => true
  | _, _ => false
  end.

(** [v == x] for a JSON value [v] and an optional string [x]. *)
Definition json_eq_str (v : json) (x : option string) : bool :=
  match v, x with
  | JStr s, Some t => (s =? t)%string
  | JNull, None => true
  | _, _ => false
  end.

(** [a > b] on [str]: lexicographic on code points. *)
Definition str_gt (a b : string) : bool := String.ltb b a.

(** [s[-n:]] *)
Definition last_chars (n : nat) (s : string) : string :=
  substring (String.length s - n) n s.

(** [f'{n}'] for a non-negative integer. *)
Definition str_of_int (n : N) : string :=
  NilEmpty.string_of_uint (N.to_uint n).

(** Dictionaries keep insertion order; keys are unique. *)
Section Dict.
Context {K V : Type} (eqb : K -> K -> bool).

Fixpoint dict_get (k : K) (d : list (K * V)) : option V :=
  match d with
  | [] => None
  | (k', v) :: rest => if eqb k k' then Some v else dict_get k rest
  end.

Definition dict_mem (k : K) (d : list (K * V)) : bool :=
  match dict_get k d with Some _ => true | None => false end.

(** [d[k] = v]: an existing key keeps its position. *)
Fixpoint dict_set (k : K) (v : V) (d : list (K * V)) : list (K * V) :=
  match d with
  | [] => [(k, v)]
  | (k', v') :: rest =>
      if eqb k k' then (k', v) :: rest else (k', v') :: dict_set k v rest
  end.

(** [d.pop(k)] for a key known to be present; no change otherwise. *)
Fixpoint dict_pop (k : K) (d : list (K * V)) : list (K * V) :=
  match d with
  | [] => []
  | (k', v') :: rest =>
      if eqb k k' then rest else (k', v') :: dict_pop k rest
  end.
End Dict.

(** [json.load] of an object: members in file order, a repeated key keeps
    its first position and its last value. *)
Definition load_object {V : Type} (members : list (string * V))
  : list (string * V) :=
  fold_left (fun d kv => dict_set String.eqb (fst kv) (snd kv) d) members [].

(** [j.get(k, None)]: only objects have [get]. *)
Definition json_get (j : json) (k : string) : outcome json :=
  match j with
  | JObj m =>
      match dict_get String.eqb k (load_object m) with
      | Some v => Ret v
      | None => Ret JNull
      end
  | _ => Raise AttributeError
  end.

(** Keys of a dictionary that was loaded from JSON and then written to by
    the program: text keys from the file, integer keys from [os.getpid()]. *)
Inductive key : Type :=
| KInt (n : N)
| KStr (s : string).

Definition key_eqb (a b : key) : bool :=
  match a, b with
  | KInt x, KInt y => (x =? y)%N
  | KStr x, KStr y => (x =? y)%string
  | _, _ => false
  end.

(** [json.dump] writes every key as text. *)
Definition key_text (k : key) : string :=
  match k with
  | KInt n => str_of_int n
  | KStr s => s
  end.

End Py.
Import Py.

(** ** The shared world *)

(** A row of the lock table: the JSON array [[name, hash]]; either part is
    [null] when the request carried none. *)
Definition row : Type := option string * option string.

(** Contents of [search.lock] and of [search.lock.tmp]: a JSON object of
    rows, or the empty file that [touch] creates. *)
Inductive lock_content : Type :=
| LEmpty
| LTable (members : list (string * row)).

(** Contents of one file of [rpc_endpoints/]. *)
Inductive descriptor_file : Type :=
| DUnreadable
| DUnparsable
| DJson (j : json).

(** Contents of [history.2.json]. *)
Inductive history_v2_file : Type :=
| H2Unparsable
| H2NoFiles
| H2NoHashTable (files : list string)
| H2Current (files : list string) (hash_table : list (string * string)).

(** Contents of [history.json]. *)
Inductive history_file : Type :=
| H1Unparsable
| H1List (files : list string).

(** The module global [idb_path]: the list read from the settings, or the
    one-shot [map] iterator that [search_idb_path] leaves behind. *)
Inductive idb_path_global : Type :=
| IdbList (roots : list string)
| IdbMap (remaining : list string).

Record world : Type := mkWorld {
  now : Z;
  tmp_lock_file : option lock_content;
  lock_file : option lock_content;
  rpc_endpoints : option (list (string * descriptor_file));
  idb_path : idb_path_global;
  history_v2 : option history_v2_file;
  history : option history_file;
  path_exists : string -> bool;
  idb_hash : string -> option string;
  glob : string -> string -> list string
}.

Definition set_now (t : Z) (w : world) : world :=
  mkWorld t (tmp_lock_file w) (lock_file w) (rpc_endpoints w) (idb_path w)
    (history_v2 w) (history w) (path_exists w) (idb_hash w) (glob w).

Definition set_tmp_lock_file (f : option lock_content) (w : world) : world :=
  mkWorld (now w) f (lock_file w) (rpc_endpoints w) (idb_path w)
    (history_v2 w) (history w) (path_exists w) (idb_hash w) (glob w).

Definition set_lock_file (f : option lock_content) (w : world) : world :=
  mkWorld (now w) (tmp_lock_file w) f (rpc_endpoints w) (idb_path w)
    (history_v2 w) (history w) (path_exists w) (idb_hash w) (glob w).

Definition set_rpc_endpoints (d : option (list (string * descriptor_file)))
    (w : world) : world :=
  mkWorld (now w) (tmp_lock_file w) (lock_file w) d (idb_path w)
    (history_v2 w) (history w) (path_exists w) (idb_hash w) (glob w).

Definition set_idb_path (g : idb_path_global) (w : world) : world :=
  mkWorld (now w) (tmp_lock_file w) (lock_file w) (rpc_endpoints w) g
    (history_v2 w) (history w) (path_exists w) (idb_hash w) (glob w).

(** ** Stateful computations *)

Definition M (A : Type) : Type := world -> outcome A * world.

Definition ret {A} (a : A) : M A := fun w => (Ret a, w).
Definition raise {A} (e : exn) : M A := fun w => (Raise e, w).
Definition sys_exit {A} (code : Z) : M A := fun w => (Exit code, w).
Definition no_fuel {A} : M A := fun w => (NoFuel, w).

Definition bind {A B} (m : M A) (k : A -> M B) : M B :=
  fun w =>
    match m w with
    | (Ret a, w') => k a w'
    | (Raise e, w') => (Raise e, w')
    | (Exit c, w') => (Exit c, w')
    | (NoFuel, w') => (NoFuel, w')
    end.

Notation "x <- m ;; k" := (bind m (fun x => k))
  (at level 61, m at next level, right associativity).
Notation "m ;;; k" := (bind m (fun _ => k))
  (at level 61, right associativity).

(** The same for computations that only fail or return. *)
Definition obind {A B} (o : outcome A) (k : A -> outcome B) : outcome B :=
  match o with
  | Ret a => k a
  | Raise e => Raise e
  | Exit c => Exit c
  | NoFuel => NoFuel
  end.

Notation "x <~ o ;; k" := (obind o (fun x => k))
  (at level 61, o at next level, right associativity).

Definition get {A} (f : world -> A) : M A := fun w => (Ret (f w), w).
Definition modify (f : world -> world) : M unit := fun w => (Ret tt, f w).
Definition lift {A} (o : outcome A) : M A := fun w => (o, w).

(** [try: m except Exception: h; raise].  [sys.exit] raises [SystemExit],
    which is not an [Exception]. *)
Definition except_reraise {A} (m : M A) (h : M unit) : M A :=
  fun w =>
    match m w with
    | (Raise e, w') => (h ;;; raise e) w'
    | r => r
    end.

(** [try: m except Exception as e: h e]. *)
Definition except_exception {A} (m : M A) (h : exn -> M A) : M A :=
  fun w =>
    match m w with
    | (Raise e, w') => h e w'
    | r => r
    end.

(** [try: m finally: f].  The clean-up runs on return, on an exception and
    on [sys.exit]; what it raises replaces the pending result. *)
Definition finally {A} (m : M A) (f : M unit) : M A :=
  fun w =>
    match m w with
    | (NoFuel, w') => (NoFuel, w')
    | (r, w') =>
        match f w' with
        | (Ret _, w'') => (r, w'')
        | (Raise e, w'') => (Raise e, w'')
        | (Exit c, w'') => (Exit c, w'')
        | (NoFuel, w'') => (NoFuel, w'')
        end
    end.

(** What the client's process sees of the outside: its own process id, the
    platform, the settings file, other processes acting while it sleeps
    ([bystanders]), the host application it spawns on a path ([spawn],
    [None] when the launcher fails), the answer of the endpoint at an
    address to a go-to request for a view and an offset ([rpc_goto]), and
    the URL library. *)
Inductive platform_name : Type := Darwin | Linux | Windows | OtherPlatform.

Inductive rpc_result : Type :=
| RpcOk
| RpcUnavailable
| RpcFailed.

Record parsed_url : Type := mkUrl {
  scheme : string;
  netloc : string;
  query : string
}.

(** Contents of [settings.json]. *)
Inductive settings_file : Type :=
| SUnparsable
| SMissingKeys
| SSettings (idb_path : list string) (ida_location : string).

Record environ : Type := mkEnviron {
  getpid : N;
  platform_system : platform_name;
  settings : option settings_file;
  bystanders : world -> world;
  spawn : string -> world -> option world;
  rpc_goto : world -> string -> option string -> string -> rpc_result;
  unquote : string -> string;
  urlparse : string -> parsed_url;
  parse_qsl : string -> list (string * string)
}.

(** [time.sleep(0.5)]: the others act, the clock moves on by one half
    unit. *)
Definition slept (env : environ) (w : world) : world :=
  set_now (now w + 1) (bystanders env w).

Definition sleep_half (env : environ) : M unit := modify (slept env).

(** ** Resolution lock *)

Module Lock.

Definition search_lock_tmp : string := "search.lock.tmp".
Definition search_lock : string := "search.lock".

Definition tmp_lock_exists (w : world) : bool :=
  match tmp_lock_file w with Some _ => true | None => false end.

Definition lock_exists (w : world) : bool :=
  match lock_file w with Some _ => true | None => false end.

(** [Path.touch()]: creates an empty file, leaves an existing one alone. *)
Definition touch_tmp : M unit :=
  modify (fun w =>
    match tmp_lock_file w with
    | Some _ => w
    | None => set_tmp_lock_file (Some LEmpty) w
    end).

(** [os.remove(tmp_lock_path)] *)
Definition remove_tmp : M unit :=
  fun w =>
    match tmp_lock_file w with
    | Some _ => (Ret tt, set_tmp_lock_file None w)
    | None => (Raise (FileNotFoundError search_lock_tmp), w)
    end.

(** [os.replace(tmp_lock_path, lock_path)] *)
Definition replace_tmp : M unit :=
  fun w =>
    match tmp_lock_file w with
    | Some c => (Ret tt, set_lock_file (Some c) (set_tmp_lock_file None w))
    | None => (Raise (FileNotFoundError search_lock_tmp), w)
    end.

(** [with open(lock_path, "r") as fd: json.load(fd)] *)
Definition read_lock_table : M (list (string * row)) :=
  fun w =>
    match lock_file w with
    | None => (Raise (FileNotFoundError search_lock), w)
    | Some LEmpty => (Raise JSONDecodeError, w)
    | Some (LTable members) => (Ret (load_object members), w)
    end.

(** The table as [json.load] gives it has text keys; the program may add
    integer ones; [json.dump] writes them all as text. *)
Definition as_keys (locks : list (string * row)) : list (key * row) :=
  map (fun kv => (KStr (fst kv), snd kv)) locks.

Definition as_members (locks : list (key * row)) : list (string * row) :=
  map (fun kv => (key_text (fst kv), snd kv)) locks.

(** [with open(tmp_lock_path, "w") as fd: json.dump(locks, fd)] *)
Definition dump_tmp (locks : list (key * row)) : M unit :=
  modify (set_tmp_lock_file (Some (LTable (as_members locks)))).

Definition out_of_time : exn :=
  TimeoutError "Ran out of time waiting for search lock".

(** The body of the [while] loop of [not_exist_wait], [t0] being the clock
    on entry.  [max_wait] is in time units, the clock in halves. *)
Fixpoint not_exist_wait_loop (env : environ) (fuel : nat)
    (exists_ : world -> bool) (max_wait : option Z) (t0 : Z) : M unit :=
  e <- get exists_ ;;
  if e then
    match fuel with
    | O => no_fuel
    | S fuel' =>
        sleep_half env ;;;
        t <- get now ;;
        match max_wait with
        | Some m =>
            if negb (m =? 0) && (t >? t0 + 2 * m)
            then raise out_of_time
            else not_exist_wait_loop env fuel' exists_ max_wait t0
        | None => not_exist_wait_loop env fuel' exists_ max_wait t0
        end
    end
  else ret tt.

Definition not_exist_wait (env : environ) (fuel : nat)
    (exists_ : world -> bool) (max_wait : option Z) : M unit :=
  t0 <- get now ;;
  not_exist_wait_loop env fuel exists_ max_wait t0.

Definition search_in_progress : exn :=
  RuntimeError
    ("Search lock already taken at search.lock.tmp"
     ++ " - search already in progress?").

(** The [except Exception] clause shared by [lock_search] and
    [release_lock]. *)
Definition cleanup_tmp : M unit :=
  e <- get tmp_lock_exists ;;
  if e then remove_tmp else ret tt.

(** The first lines shared by [lock_search] and [release_lock]: wait for
    the marker to go, take it, read the table. *)
Definition open_table (env : environ) (fuel : nat) : M (list (string * row)) :=
  not_exist_wait env fuel tmp_lock_exists (Some 10) ;;;
  e <- get tmp_lock_exists ;;
  (if e then raise search_in_progress else ret tt) ;;;
  touch_tmp ;;;
  e <- get lock_exists ;;
  if e then read_lock_table else ret [].

Definition lock_search (env : environ) (fuel : nat)
    (idb_name file_hash : option string) : M unit :=
  except_reraise
    (locks <- open_table env fuel ;;
     let locks :=
       dict_set key_eqb (KInt (getpid env)) (idb_name, file_hash)
         (as_keys locks) in
     dump_tmp locks ;;;
     replace_tmp)
    cleanup_tmp.

Definition release_lock (env : environ) (fuel : nat) : M unit :=
  except_reraise
    (locks <- open_table env fuel ;;
     let pid_str := str_of_int (getpid env) in
     let locks :=
       if dict_mem String.eqb pid_str locks
       then dict_pop String.eqb pid_str locks
       else locks in
     dump_tmp (as_keys locks) ;;;
     replace_tmp)
    cleanup_tmp.

(** The [for] loop of [check_lock]. *)
Fixpoint check_lock_loop (items : list (string * row)) (our_pid : string)
    (idb_name file_hash : option string) (found : bool) : bool :=
  match items with
  | [] => true
  | (pid, (name, hash)) :: rest =>
      if negb (opt_eqb name idb_name) || negb (opt_eqb hash file_hash)
      then check_lock_loop rest our_pid idb_name file_hash found
      else
        let found := true in
        if negb (pid =? our_pid)%string && str_gt our_pid pid
        then false
        else check_lock_loop rest our_pid idb_name file_hash found
  end.

Definition not_taken : exn :=
  RuntimeError "Search lock not taken before lock check".

Definition check_lock (env : environ) (idb_name file_hash : option string)
  : M bool :=
  locks <- read_lock_table ;;
  let our_pid := str_of_int (getpid env) in
  if negb (dict_mem String.eqb our_pid locks)
  then raise not_taken
  else ret (check_lock_loop locks our_pid idb_name file_hash false).

(** A row that makes the caller lose the check: same claim, another id,
    and the caller's id is the greater text. *)
Definition outranks (our_pid : string) (idb_name file_hash : option string)
    (r : string * row) : bool :=
  opt_eqb (fst (snd r)) idb_name && opt_eqb (snd (snd r)) file_hash
  && negb (fst r =? our_pid)%string && str_gt our_pid (fst r).

(** The mapping a lock-table file stands for: what a reader loads from it,
    the empty table when the file is absent. *)
Definition table_of (f : option lock_content) : option (list (string * row)) :=
  match f with
  | None => Some []
  | Some LEmpty => None
  | Some (LTable members) => Some (load_object members)
  end.

End Lock.

(** ** Endpoint registry *)

Module Registry.

(** [with open(endpoint_path, "r") as fd: endpoint = json.load(fd)] *)
Definition load_descriptor (f : descriptor_file) : outcome json :=
  match f with
  | DUnreadable => Raise OSError
  | DUnparsable => Raise JSONDecodeError
  | DJson j => Ret j
  end.

(** One descriptor against the request, the body of the [for] loop of
    [find_rpc] after the file is loaded: [Some address] on a match, [None]
    for [continue]. *)
Definition match_endpoint (endpoint : json) (db_name file_hash : option string)
  : outcome (option json) :=
  empty <~ (if negb (truthy endpoint) then Ret true
            else n <~ len endpoint ;; Ret (Nat.eqb n 0)) ;;
  if empty then Ret None else
  other_name <~ (if truthy_str db_name
                 then v <~ json_get endpoint "file_name" ;;
                      Ret (negb (json_eq_str v db_name))
                 else Ret false) ;;
  if other_name then Ret None else
  file_hash' <~ json_get endpoint "file_hash" ;;
  if negb (json_eq_str file_hash' file_hash) then Ret None else
  rpc_address <~ json_get endpoint "address" ;;
  if negb (truthy rpc_address) then Ret None else
  Ret (Some rpc_address).

Fixpoint find_rpc_loop (entries : list (string * descriptor_file))
    (db_name file_hash : option string) : outcome (option (json * string)) :=
  match entries with
  | [] => Ret None
  | (endpoint_path, f) :: rest =>
      endpoint <~ load_descriptor f ;;
      m <~ match_endpoint endpoint db_name file_hash ;;
      match m with
      | Some rpc_address => Ret (Some (rpc_address, endpoint_path))
      | None => find_rpc_loop rest db_name file_hash
      end
  end.

Definition find_rpc (db_name file_hash : option string)
  : M (option (json * string)) :=
  dir <- get rpc_endpoints ;;
  match dir with
  | None => ret None
  | Some entries => lift (find_rpc_loop entries db_name file_hash)
  end.

(** The [while] loop of [poll_rpc]; [backoff] is one half unit. *)
Fixpoint poll_rpc_loop (env : environ) (fuel : nat)
    (db_name file_hash : option string) (timeout : Z)
  : M (option (json * string)) :=
  t <- get now ;;
  if t + 1 <? timeout then
    match fuel with
    | O => no_fuel
    | S fuel' =>
        sleep_half env ;;;
        result <- find_rpc db_name file_hash ;;
        match result with
        | Some r => ret (Some r)
        | None => poll_rpc_loop env fuel' db_name file_hash timeout
        end
    end
  else ret None.

Definition poll_rpc (env : environ) (fuel : nat)
    (db_name file_hash : option string) (limit : Z)
  : M (option (json * string)) :=
  t <- get now ;;
  poll_rpc_loop env fuel db_name file_hash (t + 2 * limit).

(** [path.unlink()] on a descriptor of the registry. *)
Fixpoint remove_entry (p : string) (entries : list (string * descriptor_file))
  : option (list (string * descriptor_file)) :=
  match entries with
  | [] => None
  | (q, f) :: rest =>
      if (p =? q)%string then Some rest
      else match remove_entry p rest with
           | Some rest' => Some ((q, f) :: rest')
           | None => None
           end
  end.

Definition unlink (p : string) : M unit :=
  fun w =>
    match rpc_endpoints w with
    | None => (Raise (FileNotFoundError p), w)
    | Some entries =>
        match remove_entry p entries with
        | Some entries' => (Ret tt, set_rpc_endpoints (Some entries') w)
        | None => (Raise (FileNotFoundError p), w)
        end
    end.

End Registry.

(** ** Artifact locator *)

Module Locator.

Definition idb_exts : list string := ["idb"; "i64"].

(** What the locator hands back: a [str] taken from the hash table, or a
    [pathlib.Path]. *)
Inductive located : Type :=
| StrPath (s : string)
| PurePath (p : string).

Definition path_text (l : located) : string :=
  match l with
  | StrPath s => s
  | PurePath p => p
  end.

(** [if path:] a [Path] is always true, a [str] when it is not empty. *)
Definition located_truthy (l : located) : bool :=
  match l with
  | StrPath s => negb (s =? "")%string
  | PurePath _ => true
  end.

(** [Path(p).name]: what follows the last separator. *)
Fixpoint name_from (s acc : string) : string :=
  match s with
  | EmptyString => acc
  | String c rest =>
      if Ascii.eqb c "/"%char then name_from rest EmptyString
      else name_from rest (acc ++ String c EmptyString)
  end.

Definition path_name (p : string) : string := name_from p EmptyString.

Definition add_extension (path ext : string) : string := path ++ ext.

Fixpoint str_in (s : string) (l : list string) : bool :=
  match l with
  | [] => false
  | x :: rest => (s =? x)%string || str_in s rest
  end.

Definition get_history : M (option (list string)) :=
  h <- get history ;;
  match h with
  | None => ret None
  | Some H1Unparsable => raise JSONDecodeError
  | Some (H1List files) => ret (Some files)
  end.

Definition get_history_v2
  : M (option (list string * list (string * string))) :=
  h <- get history_v2 ;;
  match h with
  | None => ret None
  | Some H2Unparsable => raise JSONDecodeError
  | Some H2NoFiles => raise (KeyError "files")
  | Some (H2NoHashTable _) => raise (KeyError "hash_table")
  | Some (H2Current files hash_table) =>
      ret (Some (files, load_object hash_table))
  end.

(** [idb_hash] is the hex digest [idblib] reads from the database, [None]
    when the file cannot be opened or is no database. *)
Definition verify_db (idb_path : string) (file_hash : option string) : M bool :=
  h <- get (fun w => idb_hash w idb_path) ;;
  match h with
  | None => raise OSError
  | Some idb_hash => ret (opt_eqb (Some idb_hash) file_hash)
  end.

(** First loop of [search_history], over [hash_table.items()]. *)
Fixpoint scan_hash_table (items : list (string * string))
    (db_name file_hash : option string) : option string :=
  match items with
  | [] => None
  | (path, hash) :: rest =>
      if negb (opt_eqb (Some hash) file_hash)
      then scan_hash_table rest db_name file_hash
      else if truthy_str db_name && negb (opt_eqb db_name (Some path))
      then scan_hash_table rest db_name file_hash
      else Some path
  end.

(** Second loop of [search_history], over [files]. *)
Fixpoint scan_files (files : list string) (db_name file_hash : option string)
  : M (option string) :=
  match files with
  | [] => ret None
  | item :: rest =>
      let idb_path := item in
      let idb_name := path_name idb_path in
      let idb_path :=
        match db_name with
        | Some n =>
            if truthy_str db_name
               && negb (str_in (last_chars 3 idb_name) idb_exts)
            then add_extension idb_path (last_chars 4 n)
            else idb_path
        | None => idb_path
        end in
      let idb_name := path_name idb_path in
      e <- get (fun w => path_exists w idb_path) ;;
      if negb e then scan_files rest db_name file_hash
      else if truthy_str db_name && negb (opt_eqb (Some idb_name) db_name)
      then scan_files rest db_name file_hash
      else
        ok <- verify_db idb_path file_hash ;;
        if negb ok then scan_files rest db_name file_hash
        else ret (Some idb_path)
  end.

Definition search_history (db_name file_hash : option string)
  : M (option located) :=
  history <- get_history_v2 ;;
  stop <- match history with
          | None =>
              files <- get_history ;;
              ret (match files with
                   | None | Some [] => true
                   | Some (_ :: _) => false
                   end)
          | Some _ => ret false
          end ;;
  if stop : bool then ret None else
  match history with
  | None => raise TypeError
  | Some (files, hash_table) =>
      match scan_hash_table hash_table db_name file_hash with
      | Some path => ret (Some (StrPath path))
      | None =>
          r <- scan_files files db_name file_hash ;;
          ret (option_map PurePath r)
      end
  end.

(** Inner loop of [search_idb_path], over the matches of the glob. *)
Fixpoint verify_first (candidates : list string) (file_hash : option string)
  : M (option string) :=
  match candidates with
  | [] => ret None
  | potential_idb :: rest =>
      ok <- verify_db potential_idb file_hash ;;
      if negb ok then verify_first rest file_hash
      else ret (Some potential_idb)
  end.

(** Outer loop of [search_idb_path]; the global [idb_path] is the iterator
    it consumes. *)
Fixpoint search_roots (roots : list string) (db_name file_hash : option string)
  : M (option string) :=
  match roots with
  | [] => ret None
  | item :: rest =>
      modify (set_idb_path (IdbMap rest)) ;;;
      e <- get (fun w => path_exists w item) ;;
      if negb e then search_roots rest db_name file_hash
      else
        candidates <- get (fun w =>
          match db_name with
          | Some n =>
              if truthy_str db_name then glob w item ("**/" ++ n)
              else (glob w item "**/*.i64" ++ glob w item "**/*.idb")%list
          | None => (glob w item "**/*.i64" ++ glob w item "**/*.idb")%list
          end) ;;
        r <- verify_first candidates file_hash ;;
        match r with
        | Some potential_idb => ret (Some potential_idb)
        | None => search_roots rest db_name file_hash
        end
  end.

Definition search_idb_path (db_name file_hash : option string)
  : M (option located) :=
  g <- get idb_path ;;
  match g with
  | IdbMap _ => raise TypeError
  | IdbList [] => ret None
  | IdbList roots =>
      modify (set_idb_path (IdbMap roots)) ;;;
      r <- search_roots roots db_name file_hash ;;
      ret (option_map PurePath r)
  end.

(** [error_message]: the dialogue box, which is taken to return, then
    [sys.exit(exit_code)]. *)
Definition error_message {A} (exit_code : Z) : M A := sys_exit exit_code.

Definition search_idb (db_name file_hash : option string) : M located :=
  let last_resort :=
    path <- search_idb_path db_name file_hash ;;
    match path with
    | Some l => ret l
    | None => error_message 1
    end in
  path <- search_history db_name file_hash ;;
  match path with
  | Some l => if located_truthy l then ret l else last_resort
  | None => last_resort
  end.

(** The database at [p] has the requested input-file hash. *)
Definition verified (w : world) (p : string) (file_hash : option string)
  : Prop :=
  exists h, idb_hash w p = Some h /\ file_hash = Some h.

(** The hash table of the current-shape index records the requested hash
    for [p]. *)
Definition recorded (w : world) (p : string) (file_hash : option string)
  : Prop :=
  exists files hash_table h,
    history_v2 w = Some (H2Current files hash_table)
    /\ In (p, h) (load_object hash_table)
    /\ file_hash = Some h.

End Locator.

(** ** Resolution coordinator *)

Module Coordinator.

Import Lock Registry Locator.

Definition launch_ida (env : environ) (idb_name file_hash : option string)
  : M unit :=
  path <- search_idb idb_name file_hash ;;
  match platform_system env with
  | Darwin | Linux | Windows =>
      fun w =>
        match spawn env (path_text path) w with
        | Some w' => (Ret tt, w')
        | None => (Raise CalledProcessError, w)
        end
  | OtherPlatform => sys_exit (-3)
  end.

(** The request as [run] reads it off the URL. *)
Record request : Type := mkRequest {
  db_name : option string;
  file_hash : option string;
  query_dict : list (string * string)
}.

(** The lines of [run] before [locked = True]: no lock is held when one of
    them leaves the function. *)
Definition parse_request (env : environ) (url : string) : M request :=
  let url := unquote env url in
  let parsed_url := urlparse env url in
  (if negb ((scheme parsed_url =? "ida")%string
            || (scheme parsed_url =? "disas")%string)
   then error_message (-4) else ret tt) ;;;
  (if (query parsed_url =? "")%string
   then error_message (-4) else ret tt) ;;;
  let query := load_object (parse_qsl env (query parsed_url)) in
  let db_name := Some (netloc parsed_url) in
  let file_hash := dict_get String.eqb "hash" query in
  let type := dict_get String.eqb "type" query in
  let db_name :=
    match type with
    | Some t => if negb (t =? "ida")%string then None else db_name
    | None => db_name
    end in
  ret (mkRequest db_name file_hash query).

(** The RPC of one pass of the loop: [true] when the call went through,
    [false] when the endpoint was unavailable and its record deleted. *)
Definition call_endpoint (env : environ) (req : request)
    (result : json * string) : M bool :=
  let (endpoint, path) := result in
  match endpoint with
  | JStr address =>
      match dict_get String.eqb "offset" (query_dict req) with
      | None => raise (KeyError "offset")
      | Some offset =>
          let view := dict_get String.eqb "view" (query_dict req) in
          response <- get (fun w => rpc_goto env w address view offset) ;;
          match response with
          | RpcOk => ret true
          | RpcUnavailable => unlink path ;;; ret false
          | RpcFailed => error_message (-2)
          end
      end
  | _ => raise TypeError
  end.

(** One pass of [while not finished]; the result is [finished]. *)
Definition resolve_once (env : environ) (fuel : nat) (req : request) : M bool :=
  result <- find_rpc (db_name req) (file_hash req) ;;
  result <- match result with
            | Some r => ret r
            | None =>
                launch_ida env (db_name req) (file_hash req) ;;;
                result <- poll_rpc env fuel (db_name req) (file_hash req) 32 ;;
                match result with
                | Some r => ret r
                | None =>
                    (* the message is built first, and it names [idb_name],
                       which is bound neither in [run] nor in the module *)
                    message <- (raise (NameError "idb_name") : M string) ;;
                    error_message (-6)
                end
            end ;;
  call_endpoint env req result.

Fixpoint resolve_loop (env : environ) (fuel : nat) (passes : nat)
    (req : request) : M unit :=
  match passes with
  | O => no_fuel
  | S passes' =>
      finished <- resolve_once env fuel req ;;
      if finished : bool then ret tt
      else resolve_loop env fuel passes' req
  end.

Definition run (env : environ) (fuel : nat) (url : string) : M unit :=
  req <- parse_request env url ;;
  finally
    (lock_search env fuel (db_name req) (file_hash req) ;;;
     ok <- check_lock env (db_name req) (file_hash req) ;;
     (if negb ok
      then raise (RuntimeError
                    "Can only have request for single database at a time!")
      else ret tt) ;;;
     resolve_loop env fuel fuel req)
    (release_lock env fuel).

Definition load_settings (env : environ) : M unit :=
  match settings env with
  | None => error_message (-1)
  | Some SUnparsable => error_message (-2)
  | Some SMissingKeys => error_message (-2)
  | Some (SSettings roots _) => modify (set_idb_path (IdbList roots))
  end.

Definition start (env : environ) (fuel : nat) (argv : string) : M unit :=
  except_exception
    (load_settings env ;;; run env fuel argv)
    (fun _ => error_message (-1)).

(** Every [sys.exit] that [m] can end with carries one of [codes]. *)
Definition exits {A} (codes : list Z) (m : M A) : Prop :=
  forall w c, fst (m w) = Exit c -> In c codes.

(** The exit codes the client uses: 1 for a database that is not found, -1
    for a missing settings file or an unhandled exception, -2 for invalid
    settings or a failed RPC, -3 for a platform without a launcher, -4 for
    a URL that cannot be used. *)
Definition client_codes : list Z := [1; -1; -2; -3; -4]%Z.

End Coordinator.

(** ** Sample requests and worlds *)

Module Samples.

Import Lock Registry Locator Coordinator.

Definition sample_url : string := "ida://test.i64?hash=abc&offset=0x1000".
Definition sample_query : string := "hash=abc&offset=0x1000".
Definition sample_idb : string := "/home/u/test.i64".

(** A process on Linux with valid settings and nobody else around; the
    URL library knows the sample URL. *)
Definition quiet_env (pid : N) : environ :=
  mkEnviron pid Linux (Some (SSettings [] "/opt/ida/ida64"))
    (fun w => w)
    (fun _ w => Some w)
    (fun _ _ _ _ => RpcOk)
    (fun s => s)
    (fun url => if (url =? sample_url)%string
                then mkUrl "ida" "test.i64" sample_query
                else mkUrl "" "" "")
    (fun q => if (q =? sample_query)%string
              then [("hash", "abc"); ("offset", "0x1000")]
              else []).

(** An empty registry, no lock files, no recency index, an empty disk. *)
Definition quiet_world : world :=
  mkWorld 0 None None (Some []) (IdbList []) None None
    (fun _ => false) (fun _ => None) (fun _ _ => []).

Definition sample_row : row := (Some "test.i64", Some "abc").

(** Processes 9 and 10 both hold a claim on the sample request. *)
Definition two_claims : world :=
  set_lock_file (Some (LTable [("9", sample_row); ("10", sample_row)]))
    quiet_world.

(** Process 9 holds a claim; process 10 does not. *)
Definition one_claim : world :=
  set_lock_file (Some (LTable [("9", sample_row)])) quiet_world.

(** Another updater has created the marker and is stuck. *)
Definition wedged : world := set_tmp_lock_file (Some LEmpty) one_claim.

Definition sample_descriptor : json :=
  JObj [("pid", JNum 4242); ("address", JStr "127.0.0.1:50051");
        ("file_name", JStr "test.i64"); ("file_hash", JStr "abc")].

(** A file that is not JSON is listed before the descriptor of the
    running host. *)
Definition broken_registry : world :=
  set_rpc_endpoints
    (Some [("rpc_endpoints/1", DUnparsable);
           ("rpc_endpoints/4242", DJson sample_descriptor)])
    quiet_world.

(** The sample database is on disk and has the input hash [h]. *)
Definition with_idb (h : string) (w : world) : world :=
  mkWorld (now w) (tmp_lock_file w) (lock_file w) (rpc_endpoints w)
    (idb_path w) (history_v2 w) (history w)
    (fun p => (p =? sample_idb)%string)
    (fun p => if (p =? sample_idb)%string then Some h else None)
    (glob w).

Definition with_history_v2 (f : option history_v2_file) (w : world) : world :=
  mkWorld (now w) (tmp_lock_file w) (lock_file w) (rpc_endpoints w)
    (idb_path w) f (history w) (path_exists w) (idb_hash w) (glob w).

Definition with_history (f : option history_file) (w : world) : world :=
  mkWorld (now w) (tmp_lock_file w) (lock_file w) (rpc_endpoints w)
    (idb_path w) (history_v2 w) f (path_exists w) (idb_hash w) (glob w).

(** The current-shape index lists the sample database with hash [abc], and
    the database on disk has that hash. *)
Definition indexed : world :=
  with_history_v2 (Some (H2Current [sample_idb] [(sample_idb, "abc")]))
    (with_idb "abc" quiet_world).

(** The same index, but the database on disk has since changed. *)
Definition stale_index : world :=
  with_history_v2 (Some (H2Current [sample_idb] [(sample_idb, "abc")]))
    (with_idb "fff" quiet_world).

(** Only the legacy index exists. *)
Definition legacy_only : world :=
  with_history (Some (H1List [sample_idb])) (with_idb "abc" quiet_world).

(** The descriptor of a host that does not answer. *)
Definition dead_entry : string * descriptor_file :=
  ("rpc_endpoints/4242", DJson sample_descriptor).

(** What [find_rpc] returns for [dead_entry]. *)
Definition dead_endpoint : json * string :=
  (JStr "127.0.0.1:50051", "rpc_endpoints/4242").

(** The host never answers: whenever the client sleeps, [dead_entry] is
    registered again, and every call to its address is refused. *)
Definition zombie_env : environ :=
  mkEnviron 10 Linux (Some (SSettings [] "/opt/ida/ida64"))
    (set_rpc_endpoints (Some [dead_entry]))
    (fun _ w => Some w)
    (fun _ _ _ _ => RpcUnavailable)
    (unquote (quiet_env 10)) (urlparse (quiet_env 10))
    (parse_qsl (quiet_env 10)).

Definition zombie_world : world :=
  set_rpc_endpoints (Some [dead_entry]) indexed.

(** The zombie's world at clock [t], with the given descriptors in the
    registry and the given lock table. *)
Definition zombie_at (t : Z) (registry : list (string * descriptor_file))
    (lk : option lock_content) : world :=
  set_now t (set_lock_file lk (set_rpc_endpoints (Some registry) indexed)).

(** Process 10 has claimed the sample request and nobody else has. *)
Definition claimed_by_10 (w : world) : world :=
  set_lock_file (Some (LTable [("10", sample_row)])) w.

(** The client of the scenarios, and the indexed world after its claim. *)
Definition client : environ := quiet_env 10.
Definition claimed : world := claimed_by_10 indexed.

Definition sample_request : request :=
  mkRequest (Some "test.i64") (Some "abc")
    [("hash", "abc"); ("offset", "0x1000")].

End Samples.

(** ** Further sample worlds *)

Module Scenarios.

Import Lock Registry Locator Coordinator Samples.

(** Process 10 crashed earlier and left a row for another database; 9 has
    a claim too. *)
Definition stale_rows : list (string * row) :=
  [("10", (Some "old.i64", Some "fff")); ("9", sample_row)].

Definition stale_row : world :=
  set_lock_file (Some (LTable stale_rows)) quiet_world.

(** The lock table is an empty file. *)
Definition corrupt_table : world := set_lock_file (Some LEmpty) quiet_world.

(** An empty descriptor, the descriptor of the running host, and a file
    that is not JSON, in this order. *)
Definition mixed_registry : world :=
  set_rpc_endpoints
    (Some [("rpc_endpoints/0", DJson (JObj []));
           ("rpc_endpoints/4242", DJson sample_descriptor);
           ("rpc_endpoints/9", DUnparsable)])
    quiet_world.

(** The index lists the input file, opened before the database was
    saved. *)
Definition bare_entry : world :=
  with_history_v2 (Some (H2Current ["/home/u/test"] []))
    (with_idb "abc" quiet_world).

(** The settings name one root, which holds the sample database; there is
    no recency index. *)
Definition rooted : world :=
  mkWorld 0 None None (Some []) (IdbList ["/home/u"]) None None
    (fun p => (p =? "/home/u")%string || (p =? sample_idb)%string)
    (fun p => if (p =? sample_idb)%string then Some "abc" else None)
    (fun root pattern =>
       if (root =? "/home/u")%string && (pattern =? "**/test.i64")%string
       then [sample_idb] else []).

(** [p] is among the matches of the glob that [search_idb_path] runs on
    the root [item]: for the name when one is given, for the two database
    extensions otherwise. *)
Definition globbed (w : world) (item : string) (db_name : option string)
    (p : string) : Prop :=
  match db_name with
  | Some name =>
      if truthy_str db_name then In p (glob w item ("**/" ++ name))
      else In p (glob w item "**/*.i64") \/ In p (glob w item "**/*.idb")
  | None => In p (glob w item "**/*.i64") \/ In p (glob w item "**/*.idb")
  end.

(** The row that [run] writes for its request. *)
Definition own_row (env : environ) (req : request) : string * row :=
  (str_of_int (getpid env), (db_name req, file_hash req)).

(** The error of the loser of the priority check. *)
Definition single_request : exn :=
  RuntimeError "Can only have request for single database at a time!".

End Scenarios.

(** * Properties *)

Local Open Scope list_scope.

Import Lock Registry Locator Coordinator Samples Scenarios.

(** ** Dictionaries loaded from JSON *)

Section DictFacts.
Context {V : Type}.
Implicit Types (d m : list (string * V)) (k : string) (v : V).

Lemma dict_get_set k k' v d :
  dict_get String.eqb k (dict_set String.eqb k' v d) =
  if (k =? k')%string then Some v else dict_get String.eqb k d.
Proof.
  induction d as [|[k0 v0] d IH]; simpl.
  - reflexivity.
  - destruct (String.eqb_spec k' k0) as [->|Hk'0]; simpl.
    + destruct (String.eqb_spec k k0); reflexivity.
    + rewrite IH.
      destruct (String.eqb_spec k k0) as [->|]; [|reflexivity].
      destruct (String.eqb_spec k0 k'); congruence.
Qed.

Lemma dict_get_In k d :
  dict_get String.eqb k d <> None <-> In k (map fst d).
Proof.
  induction d as [|[k0 v0] d IH]; simpl.
  - split; [congruence | tauto].
  - destruct (String.eqb_spec k k0) as [->|Hne].
    + split; [auto | congruence].
    + rewrite IH. split; [auto | intros [?|?]; congruence].
Qed.

Lemma dict_get_None k d :
  dict_get String.eqb k d = None <-> ~ In k (map fst d).
Proof.
  rewrite <- dict_get_In.
  destruct (dict_get String.eqb k d) as [v|].
  - split; [congruence | intros H; exfalso; apply H; congruence].
  - split; [intros _ H; now apply H | reflexivity].
Qed.

Lemma In_dict_get k v d :
  In (k, v) d -> dict_get String.eqb k d <> None.
Proof.
  intros H. apply dict_get_In. change k with (fst (k, v)). now apply in_map.
Qed.

(** Writing a key that is not there appends it. *)
Lemma dict_set_fresh k v d :
  dict_get String.eqb k d = None ->
  dict_set String.eqb k v d = d ++ [(k, v)].
Proof.
  induction d as [|[k0 v0] d IH]; simpl; [reflexivity|].
  destruct (String.eqb_spec k k0); [congruence|].
  intros H. now rewrite IH.
Qed.

Lemma dict_get_app_None k d d' :
  dict_get String.eqb k (d ++ d') = None <->
  dict_get String.eqb k d = None /\ dict_get String.eqb k d' = None.
Proof.
  rewrite !dict_get_None, map_app, in_app_iff. tauto.
Qed.

(** Keys that are pairwise different load as they are written. *)
Lemma fold_set_NoDup m : forall d,
  NoDup (map fst m) ->
  (forall k, In k (map fst m) -> dict_get String.eqb k d = None) ->
  fold_left (fun d kv => dict_set String.eqb (fst kv) (snd kv) d) m d = d ++ m.
Proof.
  induction m as [|[k v] m IH]; simpl; intros d Hnd Hfresh.
  - now rewrite app_nil_r.
  - inversion Hnd as [|? ? Hk Hnd']; subst.
    rewrite dict_set_fresh by auto.
    rewrite IH; [now rewrite <- app_assoc | assumption |].
    intros k' Hk'. apply dict_get_app_None. split; [auto|].
    simpl. destruct (String.eqb_spec k' k); [congruence | reflexivity].
Qed.

Lemma load_object_NoDup m :
  NoDup (map fst m) -> load_object m = m.
Proof.
  intros H. unfold load_object. now rewrite fold_set_NoDup.
Qed.

Lemma dict_set_keys_NoDup k v d :
  NoDup (map fst d) -> NoDup (map fst (dict_set String.eqb k v d)).
Proof.
  induction d as [|[k0 v0] d IH]; simpl; intros Hnd.
  - constructor; [tauto | constructor].
  - inversion Hnd as [|? ? Hk0 Hnd']; subst.
    destruct (String.eqb_spec k k0); simpl.
    + now constructor.
    + constructor; [|auto].
      rewrite <- dict_get_In, dict_get_set.
      destruct (String.eqb_spec k0 k); [congruence|].
      now rewrite dict_get_In.
Qed.

Lemma fold_set_keys_NoDup m : forall d,
  NoDup (map fst d) ->
  NoDup (map fst
    (fold_left (fun d kv => dict_set String.eqb (fst kv) (snd kv) d) m d)).
Proof.
  induction m as [|[k v] m IH]; simpl; intros d Hnd; [assumption|].
  apply IH. now apply dict_set_keys_NoDup.
Qed.

(** A loaded dictionary has each key once; loading it again changes
    nothing. *)
Lemma load_object_keys m : NoDup (map fst (load_object m)).
Proof. apply fold_set_keys_NoDup. constructor. Qed.

Lemma load_object_idem m : load_object (load_object m) = load_object m.
Proof. apply load_object_NoDup, load_object_keys. Qed.

Lemma dict_pop_last k v d :
  dict_get String.eqb k d = None ->
  dict_pop String.eqb k (d ++ [(k, v)]) = d.
Proof.
  induction d as [|[k0 v0] d IH]; simpl.
  - now rewrite String.eqb_refl.
  - destruct (String.eqb_spec k k0); [congruence|].
    intros H. now rewrite IH.
Qed.
End DictFacts.

Lemma fold_set_get_None {V} (m : list (string * V)) : forall d k,
  dict_get String.eqb k
    (fold_left (fun d kv => dict_set String.eqb (fst kv) (snd kv) d) m d) = None
  <-> dict_get String.eqb k d = None /\ ~ In k (map fst m).
Proof.
  induction m as [|[k0 v0] m IH]; simpl; intros d k.
  - tauto.
  - rewrite IH, dict_get_set.
    destruct (String.eqb_spec k k0) as [->|Hne].
    + split; [intros [? _]; congruence | intros [_ H]; exfalso; auto].
    + split; intros [? ?]; split; auto. intros [?|?]; [congruence | auto].
Qed.

(** The keys of a loaded object are the keys written in the file. *)
Lemma load_object_get_None {V} (m : list (string * V)) k :
  dict_get String.eqb k (load_object m) = None <-> ~ In k (map fst m).
Proof.
  unfold load_object. rewrite fold_set_get_None. simpl. tauto.
Qed.

Lemma dict_mem_false {V} (d : list (string * V)) k :
  dict_mem String.eqb k d = false <-> dict_get String.eqb k d = None.
Proof.
  unfold dict_mem. destruct (dict_get String.eqb k d); split; congruence.
Qed.

(** ** Resolution lock: the priority check *)

Section CheckLock.
(** C10.  [check_lock] enforces its precondition.  When the lock-table
    file holds no row under the caller's process id, the call raises
    [RuntimeError("Search lock not taken before lock check")]; it returns
    a verdict only when the file holds such a row, and then it always
    returns one. *)
Theorem check_lock_needs_own_row
    (env : environ) (idb_name file_hash : option string) (w : world) :
  let our_pid := str_of_int (getpid env) in
  (forall members,
      lock_file w = Some (LTable members) ->
      ~ In our_pid (map fst members) ->
      check_lock env idb_name file_hash w = (Raise not_taken, w))
  /\ (forall b,
      fst (check_lock env idb_name file_hash w) = Ret b ->
      exists members,
        lock_file w = Some (LTable members) /\ In our_pid (map fst members))
  /\ (forall members,
      lock_file w = Some (LTable members) ->
      In our_pid (map fst members) ->
      exists b, check_lock env idb_name file_hash w = (Ret b, w)).
Proof.
  intros our_pid. unfold check_lock, read_lock_table, bind.
  destruct (lock_file w) as [[|members]|] eqn:Hfile; simpl.
  - repeat split; intros; discriminate.
  - fold our_pid.
    destruct (dict_mem String.eqb our_pid (load_object members)) eqn:Hmem;
      simpl.
    + assert (Hin : In our_pid (map fst members)).
      { destruct (in_dec string_dec our_pid (map fst members)) as [|Hno];
          [assumption|].
        apply load_object_get_None, dict_mem_false in Hno. congruence. }
      split; [|split].
      * intros m [= <-] Hno. contradiction.
      * intros b _. exists members. auto.
      * intros m _ _. eexists. reflexivity.
    + apply dict_mem_false, load_object_get_None in Hmem.
      split; [|split].
      * intros m _ _. reflexivity.
      * intros b H. discriminate.
      * intros m [= <-] Hin. contradiction.
  - repeat split; intros; discriminate.
Qed.
End CheckLock.

Section Priority.
Lemma opt_eqb_eq (a b : option string) : opt_eqb a b = true <-> a = b.
Proof.
  destruct a as [x|], b as [y|]; simpl; try (split; congruence).
  rewrite String.eqb_eq. split; congruence.
Qed.

Lemma opt_eqb_refl (a : option string) : opt_eqb a a = true.
Proof. now apply opt_eqb_eq. Qed.

Lemma ltb_asym (a b : string) :
  String.ltb a b = true -> String.ltb b a = false /\ a <> b.
Proof.
  unfold String.ltb. rewrite (String.compare_antisym b a).
  destruct (String.compare a b) eqn:E; simpl; try discriminate.
  intros _. split; [reflexivity|].
  intros ->. pose proof (String.compare_antisym b b) as H.
  rewrite E in H. discriminate.
Qed.

Lemma str_of_int_inj (p q : N) : str_of_int p = str_of_int q -> p = q.
Proof.
  unfold str_of_int. intros H.
  apply DecimalN.Unsigned.to_uint_inj.
  assert (E : Some (N.to_uint p) = Some (N.to_uint q))
    by now rewrite <- !NilEmpty.usu, H.
  congruence.
Qed.

Lemma check_lock_loop_spec items our_pid idb_name file_hash : forall found,
  check_lock_loop items our_pid idb_name file_hash found =
  negb (existsb (outranks our_pid idb_name file_hash) items).
Proof.
  induction items as [|[pid [name hash]] rest IH]; intros found; simpl.
  - reflexivity.
  - unfold outranks at 1. simpl.
    destruct (opt_eqb name idb_name), (opt_eqb hash file_hash); simpl;
      try apply IH.
    destruct (negb (pid =? our_pid)%string && str_gt our_pid pid); simpl;
      [reflexivity | apply IH].
Qed.

(** With the caller's row in the table, the verdict is that of the
    loop. *)
Lemma check_lock_verdict env name hash w locks r :
  table_of (lock_file w) = Some locks ->
  In (str_of_int (getpid env), r) locks ->
  check_lock env name hash w
  = (Ret (check_lock_loop locks (str_of_int (getpid env)) name hash false), w).
Proof.
  intros Htab Hin. unfold check_lock, read_lock_table, bind.
  destruct (lock_file w) as [[|members]|]; simpl in Htab;
    try discriminate; [|injection Htab as <-; contradiction].
  injection Htab as Htab. rewrite Htab.
  apply In_dict_get in Hin. unfold dict_mem.
  destruct (dict_get String.eqb (str_of_int (getpid env)) locks);
    [reflexivity | congruence].
Qed.

(** The loop lets a claimant through when no claimant of the same pair
    sorts below it. *)
Lemma check_lock_loop_lowest locks lo name hash :
  (forall pid, In (pid, (name, hash)) locks -> String.ltb pid lo = false) ->
  check_lock_loop locks lo name hash false = true.
Proof.
  intros Hlowest. rewrite check_lock_loop_spec. apply negb_true_iff.
  destruct (existsb (outranks lo name hash) locks) eqn:E; [|reflexivity].
  apply existsb_exists in E. destruct E as [[pid [n h]] [Hin Hout]].
  unfold outranks in Hout. simpl in Hout.
  apply andb_prop in Hout. destruct Hout as [Hout Hcmp].
  apply andb_prop in Hout. destruct Hout as [Hout _].
  apply andb_prop in Hout. destruct Hout as [Hn Hh].
  apply opt_eqb_eq in Hn, Hh. subst n h.
  unfold str_gt in Hcmp. rewrite (Hlowest _ Hin) in Hcmp. discriminate.
Qed.

(** The loop stops a claimant as soon as it meets a claimant of the same
    pair that sorts below it. *)
Lemma check_lock_loop_outranked locks lo hi name hash :
  In (lo, (name, hash)) locks ->
  String.ltb lo hi = true ->
  check_lock_loop locks hi name hash false = false.
Proof.
  intros Hlo Hlt. destruct (ltb_asym _ _ Hlt) as [_ Hne].
  rewrite check_lock_loop_spec. apply negb_false_iff, existsb_exists.
  exists (lo, (name, hash)). split; [assumption|].
  unfold outranks, str_gt. simpl. rewrite !opt_eqb_refl, Hlt. simpl.
  destruct (String.eqb_spec lo hi); [contradiction | reflexivity].
Qed.

(** C2.  The lock table has rows from two processes that claim the same
    (name, hash) pair, and no claimant of that pair sorts below the lower
    of the two, as is the case when they are the only two.  The process
    whose id, written as text, is the lower one under lexicographic
    comparison passes the check; the other one fails it.  [env_lo] and
    [env_hi] are the two processes' views: they differ in [getpid]. *)
Theorem check_lock_lower_id_proceeds
    (env_lo env_hi : environ) (name hash : option string) (w : world)
    (locks : list (string * row)) :
  let lo := str_of_int (getpid env_lo) in
  let hi := str_of_int (getpid env_hi) in
  table_of (lock_file w) = Some locks ->
  In (lo, (name, hash)) locks ->
  In (hi, (name, hash)) locks ->
  String.ltb lo hi = true ->
  (forall pid, In (pid, (name, hash)) locks -> String.ltb pid lo = false) ->
  check_lock env_lo name hash w = (Ret true, w)
  /\ check_lock env_hi name hash w = (Ret false, w).
Proof.
  intros lo hi Htab Hlo Hhi Hlt Hlowest.
  rewrite (check_lock_verdict env_lo name hash w locks _ Htab Hlo).
  rewrite (check_lock_verdict env_hi name hash w locks _ Htab Hhi).
  fold lo hi.
  rewrite (check_lock_loop_lowest locks lo name hash Hlowest).
  rewrite (check_lock_loop_outranked locks lo hi name hash Hlo Hlt).
  split; reflexivity.
Qed.

Lemma ltb_irrefl (a : string) : String.ltb a a = false.
Proof.
  destruct (String.ltb a a) eqn:E; [|reflexivity].
  now destruct (ltb_asym _ _ E).
Qed.

(** Two processes with different ids never have the same id text, so of
    the only two claimants of a request exactly one passes the check. *)
Lemma check_lock_exactly_one_proceeds
    (env_p env_q : environ) (name hash : option string) (w : world)
    (locks : list (string * row)) :
  let p := str_of_int (getpid env_p) in
  let q := str_of_int (getpid env_q) in
  getpid env_p <> getpid env_q ->
  table_of (lock_file w) = Some locks ->
  In (p, (name, hash)) locks ->
  In (q, (name, hash)) locks ->
  (forall pid, In (pid, (name, hash)) locks -> pid = p \/ pid = q) ->
  exists b,
    check_lock env_p name hash w = (Ret b, w)
    /\ check_lock env_q name hash w = (Ret (negb b), w).
Proof.
  intros p q Hpid Htab Hp Hq Honly.
  rewrite (check_lock_verdict env_p name hash w locks _ Htab Hp).
  rewrite (check_lock_verdict env_q name hash w locks _ Htab Hq).
  fold p q.
  assert (Hlowest : forall lo hi,
             String.ltb lo hi = true ->
             (lo = p /\ hi = q) \/ (lo = q /\ hi = p) ->
             forall pid, In (pid, (name, hash)) locks ->
                         String.ltb pid lo = false).
  { intros lo hi Hlt Hwho pid Hin.
    destruct (ltb_asym _ _ Hlt) as [Hgt _].
    destruct (Honly pid Hin) as [->| ->], Hwho as [[-> ->]|[-> ->]];
      auto using ltb_irrefl. }
  destruct (String.compare p q) eqn:Hcmp.
  - apply String.compare_eq_iff in Hcmp. apply str_of_int_inj in Hcmp.
    contradiction.
  - assert (Hlt : String.ltb p q = true)
      by (unfold String.ltb; now rewrite Hcmp).
    rewrite (check_lock_loop_lowest locks p name hash
               (Hlowest p q Hlt (or_introl (conj eq_refl eq_refl)))).
    rewrite (check_lock_loop_outranked locks p q name hash Hp Hlt).
    now exists true.
  - assert (Hlt : String.ltb q p = true)
      by (unfold String.ltb; now rewrite String.compare_antisym, Hcmp).
    rewrite (check_lock_loop_lowest locks q name hash
               (Hlowest q p Hlt (or_intror (conj eq_refl eq_refl)))).
    rewrite (check_lock_loop_outranked locks q p name hash Hq Hlt).
    now exists false.
Qed.
End Priority.

(** ** Resolution lock: claim and release *)

Section ClaimRelease.
Lemma as_members_as_keys locks : as_members (as_keys locks) = locks.
Proof.
  unfold as_members, as_keys. rewrite map_map. simpl.
  induction locks as [|[k v] l IH]; simpl; congruence.
Qed.

(** An integer key is never equal to a text key: the claim is appended. *)
Lemma dict_set_int_key pid r locks :
  dict_set key_eqb (KInt pid) r (as_keys locks) =
  as_keys locks ++ [(KInt pid, r)].
Proof.
  unfold as_keys.
  induction locks as [|[k v] l IH]; simpl; [reflexivity | now rewrite IH].
Qed.

Lemma as_members_app a b : as_members (a ++ b) = as_members a ++ as_members b.
Proof. apply map_app. Qed.

Lemma table_of_keys f locks :
  table_of f = Some locks -> NoDup (map fst locks).
Proof.
  destruct f as [[|members]|]; simpl; intros [= <-].
  - apply load_object_keys.
  - constructor.
Qed.

Lemma not_exist_wait_absent env fuel max_wait w :
  tmp_lock_file w = None ->
  not_exist_wait env fuel tmp_lock_exists max_wait w = (Ret tt, w).
Proof.
  intros H. unfold not_exist_wait, bind, get; simpl.
  destruct fuel; simpl; unfold bind, get, tmp_lock_exists; now rewrite H.
Qed.

(** With no marker in the way the table is read at once and the marker
    taken. *)
Lemma open_table_absent env fuel w locks :
  tmp_lock_file w = None ->
  table_of (lock_file w) = Some locks ->
  open_table env fuel w = (Ret locks, set_tmp_lock_file (Some LEmpty) w).
Proof.
  intros Htmp Htab. unfold open_table, bind.
  rewrite not_exist_wait_absent by assumption.
  destruct w as [t tmp lk reg roots h2 h1 ex ih gl]. simpl in Htmp, Htab.
  subst tmp.
  unfold get, touch_tmp, modify, ret, tmp_lock_exists, lock_exists,
    read_lock_table. simpl.
  destruct lk as [[|members]|]; simpl in *; congruence.
Qed.

Lemma lock_search_absent env fuel idb_name file_hash w locks :
  tmp_lock_file w = None ->
  table_of (lock_file w) = Some locks ->
  lock_search env fuel idb_name file_hash w =
  (Ret tt,
   set_lock_file
     (Some (LTable
        (locks ++ [(str_of_int (getpid env), (idb_name, file_hash))])))
     w).
Proof.
  intros Htmp Htab. unfold lock_search, except_reraise, bind.
  rewrite (open_table_absent _ _ _ _ Htmp Htab).
  rewrite dict_set_int_key.
  unfold dump_tmp, modify, replace_tmp.
  rewrite as_members_app, as_members_as_keys. simpl.
  destruct w; simpl in *. now subst.
Qed.

Lemma release_lock_absent env fuel w locks :
  tmp_lock_file w = None ->
  table_of (lock_file w) = Some locks ->
  release_lock env fuel w =
  (Ret tt,
   set_lock_file
     (Some (LTable
        (if dict_mem String.eqb (str_of_int (getpid env)) locks
         then dict_pop String.eqb (str_of_int (getpid env)) locks
         else locks)))
     w).
Proof.
  intros Htmp Htab. unfold release_lock, except_reraise, bind.
  rewrite (open_table_absent _ _ _ _ Htmp Htab).
  unfold dump_tmp, modify, replace_tmp.
  rewrite as_members_as_keys. simpl.
  destruct w; simpl in *. now subst.
Qed.

(** C9.  With no marker in the way: when the table has no row for the
    caller, [release_lock] returns normally and leaves the mapping as it
    was; and a claim by [lock_search] followed by [release_lock] gives
    back the mapping there was before the claim.  In both cases nothing
    else in the world changes and no marker is left. *)
Theorem release_lock_idempotent
    (env : environ) (fuel : nat) (idb_name file_hash : option string)
    (w : world) (locks : list (string * row)) :
  tmp_lock_file w = None ->
  table_of (lock_file w) = Some locks ->
  ~ In (str_of_int (getpid env)) (map fst locks) ->
  let released := set_lock_file (Some (LTable locks)) w in
  release_lock env fuel w = (Ret tt, released)
  /\ table_of (lock_file released) = Some locks
  /\ release_lock env fuel released = (Ret tt, released)
  /\ (lock_search env fuel idb_name file_hash ;;; release_lock env fuel) w
     = (Ret tt, released).
Proof.
  intros Htmp Htab Hfresh released.
  pose proof (table_of_keys _ _ Htab) as Hnd.
  assert (Hget : dict_get String.eqb (str_of_int (getpid env)) locks = None)
    by now apply dict_get_None.
  assert (Hreleased : table_of (lock_file released) = Some locks).
  { unfold released. destruct w; simpl. now rewrite load_object_NoDup. }
  assert (Htmp' : tmp_lock_file released = None)
    by (unfold released; destruct w; assumption).
  assert (Hrel : forall w0, tmp_lock_file w0 = None ->
            table_of (lock_file w0) = Some locks ->
            release_lock env fuel w0 =
            (Ret tt, set_lock_file (Some (LTable locks)) w0)).
  { intros w0 H1 H2. rewrite (release_lock_absent _ _ _ _ H1 H2).
    apply dict_mem_false in Hget. now rewrite Hget. }
  split; [now apply Hrel|]. split; [assumption|]. split.
  - rewrite (Hrel _ Htmp' Hreleased). unfold released. now destruct w.
  - unfold bind. rewrite (lock_search_absent _ _ _ _ _ _ Htmp Htab).
    set (claimed :=
           locks ++ [(str_of_int (getpid env), (idb_name, file_hash))]).
    assert (Hclaimed : NoDup (map fst claimed)).
    { unfold claimed. rewrite map_app. simpl.
      apply NoDup_app; [assumption | repeat constructor; simpl; tauto |].
      intros x Hx [<-|[]]. contradiction. }
    rewrite (release_lock_absent _ _ _ claimed).
    + assert (Hin : dict_mem String.eqb (str_of_int (getpid env)) claimed
                    = true).
      { destruct (dict_mem String.eqb (str_of_int (getpid env)) claimed) eqn:E;
          [reflexivity|].
        apply dict_mem_false, dict_get_app_None in E. destruct E as [_ E].
        simpl in E. now rewrite String.eqb_refl in E. }
      rewrite Hin. unfold claimed. rewrite dict_pop_last by assumption.
      unfold released. now destruct w.
    + destruct w; assumption.
    + destruct w; simpl. now rewrite load_object_NoDup.
Qed.
End ClaimRelease.

(** ** Resolution lock: a marker that stays *)

Section WedgedUpdater.
Variable env : environ.

(** Nobody else removes the marker while the caller waits. *)
Hypothesis marker_stays :
  forall w,
    tmp_lock_exists w = true -> tmp_lock_exists (bystanders env w) = true.

(** [k] sleeps before the deadline of ten time units is passed. *)
Lemma not_exist_wait_loop_times_out (k : nat) : forall fuel t0 w,
  tmp_lock_exists w = true ->
  now w + Z.of_nat k = t0 + 20 ->
  (k < fuel)%nat ->
  exists w',
    not_exist_wait_loop env fuel tmp_lock_exists (Some 10) t0 w
    = (Raise out_of_time, w')
    /\ tmp_lock_exists w' = true
    /\ now w' = t0 + 21.
Proof.
  induction k as [|k IH]; intros fuel t0 w Hex Hnow Hfuel;
    (destruct fuel as [|fuel]; [lia|]); simpl;
    unfold bind, get, sleep_half, modify; rewrite Hex; simpl.
  - replace (now w + 1 >? t0 + 20) with true
      by (symmetry; apply Z.gtb_lt; lia).
    eexists. split; [reflexivity|]. simpl. split; [|lia].
    now apply marker_stays.
  - replace (now w + 1 >? t0 + 20) with false
      by (rewrite Z.gtb_ltb; symmetry; apply Z.ltb_ge; lia).
    apply IH; simpl; [now apply marker_stays | lia | lia].
Qed.

Lemma open_table_times_out fuel w :
  tmp_lock_exists w = true ->
  (20 < fuel)%nat ->
  exists w',
    open_table env fuel w = (Raise out_of_time, w')
    /\ tmp_lock_exists w' = true.
Proof.
  intros Hex Hfuel.
  destruct (not_exist_wait_loop_times_out 20 fuel (now w) w Hex)
    as (w' & Hloop & Hex' & _); [lia | assumption |].
  exists w'. split; [|assumption].
  unfold open_table, not_exist_wait, bind at 1 2, get at 1. now rewrite Hloop.
Qed.

(** C6, as the code has it.  A marker that is still there after the wait
    makes [lock_search] and [release_lock] fail with [TimeoutError]; the
    [except] clause that both share has by then deleted the marker, which
    was not the caller's. *)
Theorem timed_out_caller_deletes_marker
    (fuel : nat) (idb_name file_hash : option string) (w : world) :
  tmp_lock_exists w = true ->
  (20 < fuel)%nat ->
  (exists w',
      lock_search env fuel idb_name file_hash w = (Raise out_of_time, w')
      /\ tmp_lock_file w' = None)
  /\ (exists w',
      release_lock env fuel w = (Raise out_of_time, w')
      /\ tmp_lock_file w' = None).
Proof.
  intros Hex Hfuel.
  destruct (open_table_times_out fuel w Hex Hfuel) as (w' & Hopen & Hex').
  assert (Hclean : (cleanup_tmp ;;; raise out_of_time) w'
                   = (@Raise unit out_of_time, set_tmp_lock_file None w')).
  { unfold cleanup_tmp, bind, get, remove_tmp, raise.
    rewrite Hex'. unfold tmp_lock_exists in Hex'.
    destruct (tmp_lock_file w'); [reflexivity | discriminate]. }
  split; exists (set_tmp_lock_file None w');
    (split; [|reflexivity]);
    unfold lock_search, release_lock, except_reraise, bind at 1;
    rewrite Hopen; exact Hclean.
Qed.
End WedgedUpdater.

(** ** Endpoint registry: descriptors that cannot be loaded *)

Section RegistryScan.
Lemma find_rpc_loop_app before rest db_name file_hash :
  find_rpc_loop before db_name file_hash = Ret None ->
  find_rpc_loop (before ++ rest) db_name file_hash =
  find_rpc_loop rest db_name file_hash.
Proof.
  induction before as [|[p f] before IH]; simpl; [reflexivity|].
  destruct (load_descriptor f) as [endpoint| | |]; simpl; try discriminate.
  destruct (match_endpoint endpoint db_name file_hash) as [[a|]| | |];
    simpl; try discriminate.
  exact IH.
Qed.

(** What the scan does skip: a document that is false as a Python
    value, such as [null] or [{}]. *)
Lemma find_rpc_loop_skips_empty p j rest db_name file_hash :
  truthy j = false ->
  find_rpc_loop ((p, DJson j) :: rest) db_name file_hash =
  find_rpc_loop rest db_name file_hash.
Proof.
  intros H. simpl. unfold match_endpoint. now rewrite H.
Qed.

(** C4, as the code has it.  A descriptor that cannot be read or parsed
    is not skipped: once the scan reaches it, [find_rpc] ends with the
    exception of [open] or [json.load], whatever descriptors follow. *)
Theorem find_rpc_malformed_descriptor_is_fatal
    (w : world) (before rest : list (string * descriptor_file))
    (endpoint_path : string) (f : descriptor_file) (e : exn)
    (db_name file_hash : option string) :
  rpc_endpoints w = Some (before ++ (endpoint_path, f) :: rest) ->
  find_rpc_loop before db_name file_hash = Ret None ->
  load_descriptor f = Raise e ->
  find_rpc db_name file_hash w = (Raise e, w).
Proof.
  intros Hdir Hbefore Hload.
  unfold find_rpc, bind, get, lift. rewrite Hdir.
  rewrite (find_rpc_loop_app _ _ _ _ Hbefore). simpl. now rewrite Hload.
Qed.
End RegistryScan.

(** ** Artifact locator *)

Section LocatorFacts.
Lemma opt_eqb_Some h file_hash :
  opt_eqb (Some h) file_hash = true -> file_hash = Some h.
Proof.
  destruct file_hash as [x|]; simpl; [|discriminate].
  now intros ->%String.eqb_eq.
Qed.

Lemma verify_db_true p file_hash w w' :
  verify_db p file_hash w = (Ret true, w') ->
  w' = w /\ verified w p file_hash.
Proof.
  unfold verify_db, bind, get, verified.
  destruct (idb_hash w p) as [h|]; simpl; [|discriminate].
  unfold ret. intros [= H <-]. split; [reflexivity|].
  exists h. split; [reflexivity | now apply opt_eqb_Some].
Qed.

Lemma verify_db_pure p file_hash w o w' :
  verify_db p file_hash w = (o, w') -> w' = w.
Proof.
  unfold verify_db, bind, get. destruct (idb_hash w p); simpl;
    unfold ret, raise; congruence.
Qed.

Lemma scan_hash_table_Some items db_name file_hash p :
  scan_hash_table items db_name file_hash = Some p ->
  (exists h, In (p, h) items /\ file_hash = Some h)
  /\ (truthy_str db_name = true -> db_name = Some p).
Proof.
  induction items as [|[path hash] rest IH]; cbn [scan_hash_table];
    [discriminate|].
  destruct (opt_eqb (Some hash) file_hash) eqn:Hh; cbn [negb].
  - destruct (truthy_str db_name && negb (opt_eqb db_name (Some path)))
      eqn:Hn.
    + intros H. destruct (IH H) as [(h & Hin & Hf) Hname].
      split; [exists h; split; [now right | assumption] | assumption].
    + intros [= <-]. split.
      * exists hash. split; [now left | now apply opt_eqb_Some].
      * intros Ht. rewrite Ht in Hn. simpl in Hn.
        apply negb_false_iff in Hn. now apply opt_eqb_eq.
  - intros H. destruct (IH H) as [(h & Hin & Hf) Hname].
    split; [exists h; split; [now right | assumption] | assumption].
Qed.

Lemma scan_files_Some files db_name file_hash : forall w p w',
  scan_files files db_name file_hash w = (Ret (Some p), w') ->
  w' = w /\ verified w p file_hash.
Proof.
  induction files as [|item rest IH]; intros w p w'; cbn [scan_files].
  - discriminate.
  - cbv zeta. unfold bind at 1, get at 1.
    match goal with
    | |- context [path_exists w ?q] => set (candidate := q)
    end.
    destruct (path_exists w candidate); cbn [negb]; [|apply IH].
    destruct (truthy_str db_name
              && negb (opt_eqb (Some (path_name candidate)) db_name));
      [apply IH|].
    unfold bind.
    destruct (verify_db candidate file_hash w) as [[[|]| | |] w1] eqn:Hv;
      try discriminate; cbn [negb].
    + apply verify_db_true in Hv. destruct Hv as [-> Hv].
      unfold ret. now intros [= <- <-].
    + apply verify_db_pure in Hv. subst w1. apply IH.
Qed.
End LocatorFacts.

Section LocatorTiers.
Lemma verify_first_Some candidates file_hash : forall w p w',
  verify_first candidates file_hash w = (Ret (Some p), w') ->
  w' = w /\ verified w p file_hash.
Proof.
  induction candidates as [|c rest IH]; intros w p w'; cbn [verify_first].
  - discriminate.
  - unfold bind.
    destruct (verify_db c file_hash w) as [[[|]| | |] w1] eqn:Hv;
      try discriminate; cbn [negb].
    + apply verify_db_true in Hv. destruct Hv as [-> Hv].
      unfold ret. now intros [= <- <-].
    + apply verify_db_pure in Hv. subst w1. apply IH.
Qed.

Lemma verify_first_pure candidates file_hash : forall w o w',
  verify_first candidates file_hash w = (o, w') -> w' = w.
Proof.
  induction candidates as [|c rest IH]; intros w o w'; cbn [verify_first].
  - unfold ret. congruence.
  - unfold bind.
    destruct (verify_db c file_hash w) as [[[|]| | |] w1] eqn:Hv;
      apply verify_db_pure in Hv; subst w1; cbn [negb];
      try (unfold ret; congruence).
    apply IH.
Qed.

(** The search over the roots only moves the iterator on. *)
Lemma search_roots_Some roots db_name file_hash : forall w p w',
  search_roots roots db_name file_hash w = (Ret (Some p), w') ->
  verified w p file_hash.
Proof.
  induction roots as [|item rest IH]; intros w p w'; cbn [search_roots].
  - discriminate.
  - unfold bind at 1, modify at 1. unfold bind at 1, get at 1.
    set (w1 := set_idb_path (IdbMap rest) w).
    assert (Hsame : forall q h, verified w1 q h -> verified w q h)
      by (intros q h Hq; exact Hq).
    destruct (path_exists w1 item); cbn [negb].
    + unfold bind at 1, get at 1. unfold bind at 1.
      match goal with
      | |- context [verify_first ?c file_hash w1] => set (candidates := c)
      end.
      destruct (verify_first candidates file_hash w1)
        as [[[q|]| | |] w2] eqn:Hv; try discriminate.
      * apply verify_first_Some in Hv. destruct Hv as [-> Hv].
        unfold ret. intros [= <- <-]. now apply Hsame.
      * apply verify_first_pure in Hv. subst w2.
        intros H. apply Hsame. exact (IH _ _ _ H).
    + intros H. apply Hsame. exact (IH _ _ _ H).
Qed.

Lemma search_idb_path_Some db_name file_hash w l w' :
  search_idb_path db_name file_hash w = (Ret (Some l), w') ->
  exists p, l = PurePath p /\ verified w p file_hash.
Proof.
  unfold search_idb_path, bind at 1, get at 1.
  destruct (idb_path w) as [[|r roots]|remaining]; try discriminate.
  unfold bind, modify.
  set (w1 := set_idb_path (IdbMap (r :: roots)) w).
  destruct (search_roots (r :: roots) db_name file_hash w1)
    as [[[p|]| | |] w2] eqn:Hs; try discriminate.
  unfold ret. intros [= <- <-]. exists p. split; [reflexivity|].
  exact (search_roots_Some _ _ _ _ _ _ Hs).
Qed.

Lemma search_history_Some db_name file_hash w l w' :
  search_history db_name file_hash w = (Ret (Some l), w') ->
  match l with
  | StrPath p => recorded w p file_hash
  | PurePath p => verified w p file_hash
  end.
Proof.
  unfold search_history, bind at 1, get_history_v2, bind at 1, get at 1.
  destruct (history_v2 w) as [[| |files|files hash_table]|] eqn:Hh;
    try discriminate.
  - unfold ret at 1, bind at 1, ret at 1.
    destruct (scan_hash_table (load_object hash_table) db_name file_hash)
      as [p|] eqn:Hscan.
    + unfold ret. intros [= <- <-].
      apply scan_hash_table_Some in Hscan.
      destruct Hscan as [(h & Hin & Hf) _].
      exists files, hash_table, h. auto.
    + unfold bind.
      destruct (scan_files files db_name file_hash w)
        as [[[p|]| | |] w1] eqn:Hs; try discriminate.
      unfold ret. simpl. intros [= <- <-].
      now apply scan_files_Some in Hs.
  - unfold ret at 1, bind at 1, bind at 1, get_history, bind at 1, get at 1.
    destruct (history w) as [[|[|f fs]]|]; try discriminate.
Qed.

Lemma scan_files_pure files db_name file_hash : forall w o w',
  scan_files files db_name file_hash w = (o, w') -> w' = w.
Proof.
  induction files as [|item rest IH]; intros w o w'; cbn [scan_files].
  - unfold ret. congruence.
  - cbv zeta. unfold bind at 1, get at 1.
    match goal with
    | |- context [path_exists w ?q] => set (candidate := q)
    end.
    destruct (path_exists w candidate); cbn [negb]; [|apply IH].
    destruct (truthy_str db_name
              && negb (opt_eqb (Some (path_name candidate)) db_name));
      [apply IH|].
    unfold bind.
    destruct (verify_db candidate file_hash w) as [[[|]| | |] w1] eqn:Hv;
      apply verify_db_pure in Hv; subst w1; cbn [negb];
      try (unfold ret; congruence).
    apply IH.
Qed.

(** Reading the recency index changes nothing. *)
Lemma search_history_pure db_name file_hash w o w' :
  search_history db_name file_hash w = (o, w') -> w' = w.
Proof.
  unfold search_history, bind at 1, get_history_v2, bind at 1, get at 1.
  destruct (history_v2 w) as [[| |files|files hash_table]|];
    try (unfold raise; congruence).
  - unfold ret at 1, bind at 1, ret at 1.
    destruct (scan_hash_table (load_object hash_table) db_name file_hash);
      [unfold ret; congruence|].
    unfold bind.
    destruct (scan_files files db_name file_hash w) as [[r| | |] w1] eqn:Hs;
      apply scan_files_pure in Hs; subst w1; unfold ret; congruence.
  - unfold ret at 1, bind at 1, bind at 1, get_history, bind at 1, get at 1.
    destruct (history w) as [[|[|f fs]]|]; unfold ret, raise; simpl;
      congruence.
Qed.

(** C1, as amended.  A path that the locator returns as a [Path] comes
    from the file list of the recency index or from a search root, and
    the hash computed from the database at that path is the requested
    one.  A path that it returns as a [str] comes from the hash table of
    the current-shape index, and the hash recorded there for that path is
    the requested one; the database itself is not opened. *)
Theorem locate_returns_verified_or_recorded
    (db_name file_hash : option string) (w : world) :
  (forall l w',
      search_history db_name file_hash w = (Ret (Some l), w') ->
      match l with
      | StrPath p => recorded w p file_hash
      | PurePath p => verified w p file_hash
      end)
  /\ (forall l w',
      search_idb_path db_name file_hash w = (Ret (Some l), w') ->
      exists p, l = PurePath p /\ verified w p file_hash)
  /\ (forall l w',
      search_idb db_name file_hash w = (Ret l, w') ->
      match l with
      | StrPath p => recorded w p file_hash
      | PurePath p => verified w p file_hash
      end).
Proof.
  split; [|split].
  - intros l w'. apply search_history_Some.
  - intros l w'. apply search_idb_path_Some.
  - intros l w'. unfold search_idb. cbv zeta. unfold bind at 1.
    destruct (search_history db_name file_hash w) as [[r| | |] w1] eqn:Hh;
      try discriminate.
    pose proof (search_history_pure _ _ _ _ _ Hh). subst w1.
    assert (Hlast : forall k : M located,
               k = (path <- search_idb_path db_name file_hash ;;
                    match path with
                    | Some l => ret l
                    | None => error_message 1
                    end) ->
               k w = (Ret l, w') ->
               match l with
               | StrPath p => recorded w p file_hash
               | PurePath p => verified w p file_hash
               end).
    { intros k ->. unfold bind.
      destruct (search_idb_path db_name file_hash w)
        as [[[l1|]| | |] w2] eqn:Hp; try discriminate.
      unfold ret. intros [= <- <-].
      now destruct (search_idb_path_Some _ _ _ _ _ Hp) as (p & -> & Hv). }
    destruct r as [l0|]; [|now apply Hlast].
    destruct (located_truthy l0); [|now apply Hlast].
    unfold ret. intros [= <- <-].
    exact (search_history_Some _ _ _ _ _ Hh).
Qed.
End LocatorTiers.

Section RecencyIndex.
(** C3, as the code has it.  When [history.2.json] is absent and
    [history.json] lists at least one path, [search_history] does not
    search that list: it ends with the [TypeError] of unpacking [None].
    When [history.2.json] is there but cannot be parsed, or lacks one of
    its two keys, the exception of the load leaves [search_history]
    before [history.json] is looked at. *)
Theorem search_history_fallback_raises
    (db_name file_hash : option string) (w : world) :
  (forall item files,
      history_v2 w = None ->
      history w = Some (H1List (item :: files)) ->
      search_history db_name file_hash w = (Raise TypeError, w))
  /\ (history_v2 w = Some H2Unparsable ->
      search_history db_name file_hash w = (Raise JSONDecodeError, w))
  /\ (history_v2 w = Some H2NoFiles ->
      search_history db_name file_hash w = (Raise (KeyError "files"), w)).
Proof.
  unfold search_history, get_history_v2, get_history, bind, get.
  split; [|split].
  - intros item files -> H1. simpl. now rewrite H1.
  - intros ->. reflexivity.
  - intros ->. reflexivity.
Qed.

(** C7, as the code has it.  With a name given, the hash-table tier
    compares the name with the whole key of the entry.  An entry whose
    key is a path that merely ends in the name is passed over, whatever
    hash it records. *)
Theorem hash_table_tier_compares_whole_path
    (items : list (string * string)) (name : string)
    (file_hash : option string) :
  name <> "" ->
  (forall p h, In (p, h) items -> p <> name) ->
  scan_hash_table items (Some name) file_hash = None.
Proof.
  intros Hname Hkeys.
  destruct (scan_hash_table items (Some name) file_hash) as [p|] eqn:Hscan;
    [|reflexivity].
  apply scan_hash_table_Some in Hscan.
  destruct Hscan as [(h & Hin & _) Hsame].
  assert (Ht : truthy_str (Some name) = true).
  { simpl. now destruct (String.eqb_spec name ""). }
  specialize (Hsame Ht). injection Hsame as ->.
  exfalso. exact (Hkeys _ _ Hin eq_refl).
Qed.
End RecencyIndex.

(** ** Exit codes *)

Section ExitCodes.
Lemma exits_ret {A} codes (a : A) : exits codes (ret a).
Proof. intros w c. discriminate. Qed.

Lemma exits_raise {A} codes e : exits codes (@raise A e).
Proof. intros w c. discriminate. Qed.

Lemma exits_no_fuel {A} codes : exits codes (@no_fuel A).
Proof. intros w c. discriminate. Qed.

Lemma exits_get {A} codes (f : world -> A) : exits codes (get f).
Proof. intros w c. discriminate. Qed.

Lemma exits_modify codes f : exits codes (modify f).
Proof. intros w c. discriminate. Qed.

Lemma exits_sys_exit {A} codes c : In c codes -> exits codes (@sys_exit A c).
Proof. intros H w c'. simpl. now intros [= <-]. Qed.

Lemma exits_bind {A B} codes (m : M A) (k : A -> M B) :
  exits codes m -> (forall a, exits codes (k a)) -> exits codes (bind m k).
Proof.
  intros Hm Hk w c. unfold bind.
  specialize (Hm w). destruct (m w) as [[a|e|c'|] w1]; simpl in *;
    try discriminate.
  - apply Hk.
  - intros [= <-]. now apply Hm.
Qed.

Lemma exits_except_reraise {A} codes (m : M A) h :
  exits codes m -> exits codes h -> exits codes (except_reraise m h).
Proof.
  intros Hm Hh w c. unfold except_reraise.
  specialize (Hm w). destruct (m w) as [[a|e|c'|] w1]; simpl in *;
    try discriminate.
  - apply (exits_bind codes h (fun _ => raise e)); [assumption|].
    intros _. apply exits_raise.
  - intros [= <-]. now apply Hm.
Qed.

Lemma exits_except_exception {A} codes (m : M A) h :
  exits codes m -> (forall e, exits codes (h e)) ->
  exits codes (except_exception m h).
Proof.
  intros Hm Hh w c. unfold except_exception.
  specialize (Hm w). destruct (m w) as [[a|e|c'|] w1]; simpl in *;
    try discriminate.
  - apply Hh.
  - intros [= <-]. now apply Hm.
Qed.

Lemma exits_finally {A} codes (m : M A) f :
  exits codes m -> exits codes f -> exits codes (finally m f).
Proof.
  intros Hm Hf w c. unfold finally.
  specialize (Hm w). destruct (m w) as [[a|e|c'|] w1]; simpl in *;
    try discriminate;
    specialize (Hf w1); destruct (f w1) as [[[]|e'|c''|] w2]; simpl in *;
    try discriminate; intros [= <-]; auto.
Qed.

Lemma exits_lift {A} codes (o : outcome A) :
  (forall c, o <> Exit c) -> exits codes (lift o).
Proof. intros H w c E. simpl in E. now apply H in E. Qed.

Lemma exits_weaken {A} codes codes' (m : M A) :
  incl codes codes' -> exits codes m -> exits codes' m.
Proof. intros Hi Hm w c E. apply Hi. exact (Hm w c E). Qed.
End ExitCodes.

Create HintDb exits.

Ltac exits_step :=
  first
    [ apply exits_ret | apply exits_raise | apply exits_no_fuel
    | apply exits_get | apply exits_modify
    | apply exits_sys_exit; simpl; tauto
    | solve [eauto 1 with exits nocore]
    | apply exits_bind; [|intros ?]
    | apply exits_except_reraise
    | apply exits_finally
    | apply exits_except_exception; [|intros ?]
    | match goal with
      | |- exits _ (match ?x with _ => _ end) => destruct x
      | |- exits _ (let _ := _ in _) => cbv zeta
      end ].

Ltac exits_all := repeat exits_step.

Section ClientExits.
Lemma exits_remove_tmp : exits client_codes remove_tmp.
Proof. intros w c. unfold remove_tmp. now destruct (tmp_lock_file w). Qed.

Lemma exits_replace_tmp : exits client_codes replace_tmp.
Proof. intros w c. unfold replace_tmp. now destruct (tmp_lock_file w). Qed.

Lemma exits_read_lock_table : exits client_codes read_lock_table.
Proof.
  intros w c. unfold read_lock_table. now destruct (lock_file w) as [[|]|].
Qed.

Lemma exits_unlink p : exits client_codes (unlink p).
Proof.
  intros w c. unfold unlink. destruct (rpc_endpoints w) as [entries|];
    [|discriminate].
  now destruct (remove_entry p entries).
Qed.

Hint Resolve exits_remove_tmp exits_replace_tmp exits_read_lock_table
  exits_unlink : exits.

Lemma exits_not_exist_wait_loop env fuel exists_ max_wait t0 :
  exits client_codes (not_exist_wait_loop env fuel exists_ max_wait t0).
Proof.
  induction fuel as [|fuel IH]; cbn [not_exist_wait_loop];
    unfold sleep_half; exits_all.
Qed.

Hint Resolve exits_not_exist_wait_loop : exits.

Lemma exits_lock_search env fuel idb_name file_hash :
  exits client_codes (lock_search env fuel idb_name file_hash).
Proof.
  unfold lock_search, open_table, not_exist_wait, cleanup_tmp, touch_tmp,
    dump_tmp. exits_all.
Qed.

Lemma exits_release_lock env fuel :
  exits client_codes (release_lock env fuel).
Proof.
  unfold release_lock, open_table, not_exist_wait, cleanup_tmp, touch_tmp,
    dump_tmp. exits_all.
Qed.

Lemma exits_check_lock env idb_name file_hash :
  exits client_codes (check_lock env idb_name file_hash).
Proof. unfold check_lock. exits_all. Qed.

Lemma match_endpoint_no_exit endpoint db_name file_hash c :
  match_endpoint endpoint db_name file_hash <> Exit c.
Proof.
  unfold match_endpoint, obind, json_get, len.
  destruct endpoint as [|b|z|s|items|members]; simpl;
    repeat match goal with
           | |- context [if ?b then _ else _] => destruct b; simpl
           | |- context [match dict_get ?e ?k ?d with _ => _ end] =>
               destruct (dict_get e k d); simpl
           end; discriminate.
Qed.

Lemma find_rpc_loop_no_exit entries db_name file_hash c :
  find_rpc_loop entries db_name file_hash <> Exit c.
Proof.
  induction entries as [|[p f] rest IH]; simpl; [discriminate|].
  destruct f as [| |j]; simpl; try discriminate.
  pose proof (match_endpoint_no_exit j db_name file_hash) as Hm.
  destruct (match_endpoint j db_name file_hash) as [[a|]|e|c'|]; simpl;
    try discriminate; [assumption|].
  now specialize (Hm c').
Qed.

Lemma exits_find_rpc db_name file_hash :
  exits client_codes (find_rpc db_name file_hash).
Proof.
  unfold find_rpc. exits_all.
  apply exits_lift. intros c. apply find_rpc_loop_no_exit.
Qed.

Hint Resolve exits_lock_search exits_release_lock exits_check_lock
  exits_find_rpc : exits.

Lemma exits_poll_rpc env fuel db_name file_hash limit :
  exits client_codes (poll_rpc env fuel db_name file_hash limit).
Proof.
  unfold poll_rpc. apply exits_bind; [exits_all|]. intros t.
  generalize (t + 2 * limit). intros timeout.
  induction fuel as [|fuel IH]; cbn [poll_rpc_loop]; unfold sleep_half;
    exits_all.
Qed.

Lemma exits_verify_db p file_hash : exits client_codes (verify_db p file_hash).
Proof. unfold verify_db. exits_all. Qed.

Hint Resolve exits_poll_rpc exits_verify_db : exits.

Lemma exits_scan_files files db_name file_hash :
  exits client_codes (scan_files files db_name file_hash).
Proof.
  induction files as [|item rest IH]; cbn [scan_files]; exits_all.
Qed.

Lemma exits_verify_first candidates file_hash :
  exits client_codes (verify_first candidates file_hash).
Proof.
  induction candidates as [|c rest IH]; cbn [verify_first]; exits_all.
Qed.

Hint Resolve exits_scan_files exits_verify_first : exits.

Lemma exits_search_roots roots db_name file_hash :
  exits client_codes (search_roots roots db_name file_hash).
Proof.
  induction roots as [|item rest IH]; cbn [search_roots]; exits_all.
Qed.

Hint Resolve exits_search_roots : exits.

Lemma exits_search_idb db_name file_hash :
  exits client_codes (search_idb db_name file_hash).
Proof.
  unfold search_idb, search_history, search_idb_path, get_history_v2,
    get_history, error_message.
  exits_all.
Qed.

Hint Resolve exits_search_idb : exits.

Lemma exits_launch_ida env idb_name file_hash :
  exits client_codes (launch_ida env idb_name file_hash).
Proof.
  unfold launch_ida. apply exits_bind; [exits_all|]. intros path.
  destruct (platform_system env); try (apply exits_sys_exit; simpl; tauto);
    intros w c; now destruct (spawn env (path_text path) w).
Qed.

Hint Resolve exits_launch_ida : exits.

Lemma exits_resolve_loop env fuel passes req :
  exits client_codes (resolve_loop env fuel passes req).
Proof.
  induction passes as [|passes IH]; cbn [resolve_loop];
    unfold resolve_once, call_endpoint, error_message; exits_all.
Qed.

Hint Resolve exits_resolve_loop : exits.

Lemma exits_run env fuel url : exits client_codes (run env fuel url).
Proof. unfold run, parse_request, error_message. exits_all. Qed.

(** Whatever the input, the process ends with one of five exit codes
    besides success. *)
Lemma exits_start env fuel argv : exits client_codes (start env fuel argv).
Proof.
  pose proof (exits_run env fuel argv).
  unfold start, load_settings, error_message. exits_all.
Qed.
End ClientExits.

(** ** Worked instances *)

(** Process 10 asks for the check while only process 9 has a claim. *)
Lemma check_lock_needs_own_row_witness :
  check_lock (quiet_env 10) (Some "test.i64") (Some "abc") one_claim
  = (Raise not_taken, one_claim).
Proof.
  apply (proj1 (check_lock_needs_own_row (quiet_env 10) (Some "test.i64")
                  (Some "abc") one_claim) [("9", sample_row)]).
  - reflexivity.
  - vm_compute. intros [H|[]]. discriminate H.
Defined.

(** Processes 9 and 10 claim the same database: as text, "10" sorts before
    "9", so process 10 goes on. *)
Lemma check_lock_lower_id_proceeds_witness :
  check_lock (quiet_env 10) (Some "test.i64") (Some "abc") two_claims
  = (Ret true, two_claims)
  /\ check_lock (quiet_env 9) (Some "test.i64") (Some "abc") two_claims
     = (Ret false, two_claims).
Proof.
  apply (check_lock_lower_id_proceeds (quiet_env 10) (quiet_env 9)
           (Some "test.i64") (Some "abc") two_claims
           [("9", sample_row); ("10", sample_row)]).
  - reflexivity.
  - vm_compute. right. left. reflexivity.
  - vm_compute. left. reflexivity.
  - reflexivity.
  - intros pid H. vm_compute in H.
    destruct H as [H|[H|[]]]; injection H as <-; reflexivity.
Defined.

(** Process 10 claims and releases next to the claim of process 9. *)
Lemma release_lock_idempotent_witness :
  let released := set_lock_file (Some (LTable [("9", sample_row)])) one_claim in
  release_lock (quiet_env 10) 0 one_claim = (Ret tt, released)
  /\ table_of (lock_file released) = Some [("9", sample_row)]
  /\ release_lock (quiet_env 10) 0 released = (Ret tt, released)
  /\ (lock_search (quiet_env 10) 0 (Some "test.i64") (Some "abc") ;;;
      release_lock (quiet_env 10) 0) one_claim = (Ret tt, released).
Proof.
  apply (release_lock_idempotent (quiet_env 10) 0 (Some "test.i64")
           (Some "abc") one_claim [("9", sample_row)]).
  - reflexivity.
  - reflexivity.
  - vm_compute. intros [H|[]]. discriminate H.
Defined.

(** Process 10 waits for a marker that nobody removes. *)
Lemma timed_out_caller_deletes_marker_witness :
  (exists w',
      lock_search (quiet_env 10) 21 (Some "test.i64") (Some "abc") wedged
      = (Raise out_of_time, w')
      /\ tmp_lock_file w' = None)
  /\ (exists w',
      release_lock (quiet_env 10) 21 wedged = (Raise out_of_time, w')
      /\ tmp_lock_file w' = None).
Proof.
  apply (timed_out_caller_deletes_marker (quiet_env 10) (fun w H => H) 21
           (Some "test.i64") (Some "abc") wedged).
  - reflexivity.
  - lia.
Defined.

(** The descriptor of the running host comes after a file that is not
    JSON: the scan does not get to it. *)
Lemma find_rpc_malformed_descriptor_is_fatal_witness :
  find_rpc (Some "test.i64") (Some "abc") broken_registry
  = (Raise JSONDecodeError, broken_registry)
  /\ find_rpc_loop [("rpc_endpoints/4242", DJson sample_descriptor)]
       (Some "test.i64") (Some "abc")
     = Ret (Some (JStr "127.0.0.1:50051", "rpc_endpoints/4242")).
Proof.
  split; [|reflexivity].
  apply (find_rpc_malformed_descriptor_is_fatal broken_registry []
           [("rpc_endpoints/4242", DJson sample_descriptor)]
           "rpc_endpoints/1" DUnparsable JSONDecodeError).
  - reflexivity.
  - reflexivity.
  - reflexivity.
Defined.

(** The database listed in the index is found and its hash checked. *)
Lemma locate_returns_verified_or_recorded_witness :
  search_idb (Some "test.i64") (Some "abc") indexed
  = (Ret (PurePath sample_idb), indexed)
  /\ verified indexed sample_idb (Some "abc").
Proof.
  assert (H : search_idb (Some "test.i64") (Some "abc") indexed
              = (Ret (PurePath sample_idb), indexed)) by reflexivity.
  split; [exact H|].
  exact (proj2 (proj2 (locate_returns_verified_or_recorded
                         (Some "test.i64") (Some "abc") indexed))
           (PurePath sample_idb) indexed H).
Defined.

(** C1 as stated fails.  The index still records hash [abc] for the sample
    database, whose input file has since changed; a request by hash alone
    gets the path of that database back. *)
Lemma locate_returns_unverified_path :
  ~ (forall db_name file_hash w l w',
        search_idb db_name file_hash w = (Ret l, w') ->
        verified w (path_text l) file_hash).
Proof.
  intros H.
  destruct (H None (Some "abc") stale_index (StrPath sample_idb) stale_index
              eq_refl) as (h & Hdisk & Hasked).
  vm_compute in Hdisk. congruence.
Qed.

(** Only [history.json] exists and it lists the database. *)
Lemma search_history_fallback_raises_witness :
  search_history (Some "test.i64") (Some "abc") legacy_only
  = (Raise TypeError, legacy_only).
Proof.
  apply (proj1 (search_history_fallback_raises (Some "test.i64") (Some "abc")
                  legacy_only) sample_idb []); reflexivity.
Defined.

(** The hash table records the right hash under a key whose last segment
    is the requested name. *)
Lemma hash_table_tier_compares_whole_path_witness :
  path_name sample_idb = "test.i64"
  /\ scan_hash_table [(sample_idb, "abc")] (Some "test.i64") (Some "abc")
     = None.
Proof.
  split; [reflexivity|].
  apply hash_table_tier_compares_whole_path.
  - discriminate.
  - intros p h [H|[]]. injection H as <- <-. discriminate.
Defined.

(** ** Polling for an endpoint *)

Lemma bind_ret_eq {A B} (m : M A) (k : A -> M B) w a w' :
  m w = (Ret a, w') -> bind m k w = k a w'.
Proof. unfold bind. now intros ->. Qed.

Lemma bind_raise_eq {A B} (m : M A) (k : A -> M B) w e w' :
  m w = (Raise e, w') -> bind m k w = (Raise e, w').
Proof. unfold bind. now intros ->. Qed.

Lemma find_rpc_reads db_name file_hash w :
  find_rpc db_name file_hash w = (fst (find_rpc db_name file_hash w), w).
Proof.
  unfold find_rpc, bind, get, lift, ret. now destruct (rpc_endpoints w).
Qed.

Lemma find_rpc_empty db_name file_hash w :
  rpc_endpoints w = Some [] -> fst (find_rpc db_name file_hash w) = Ret None.
Proof. unfold find_rpc, bind, get. now intros ->. Qed.

Section PollTimeout.
Variables (env : environ) (db_name file_hash : option string).

(** The host never registers: [quiet] holds of the worlds the client
    wakes up in, and in a quiet world the registry has no descriptor for
    the request. *)
Variable quiet : world -> Prop.
Hypothesis quiet_slept : forall w, quiet w -> quiet (slept env w).
Hypothesis quiet_no_match :
  forall w, quiet w -> fst (find_rpc db_name file_hash w) = Ret None.

Lemma poll_rpc_loop_times_out (k : nat) : forall fuel timeout w,
  quiet w ->
  now w + Z.of_nat k + 1 = timeout ->
  (k <= fuel)%nat ->
  poll_rpc_loop env fuel db_name file_hash timeout w
  = (Ret None, Nat.iter k (slept env) w)
  /\ now (Nat.iter k (slept env) w) = now w + Z.of_nat k.
Proof.
  induction k as [|k IH]; intros fuel timeout w Hq Ht Hfuel.
  - split; [|simpl; lia].
    destruct fuel; cbn [poll_rpc_loop]; unfold bind, get;
      replace (now w + 1 <? timeout) with false
        by (symmetry; apply Z.ltb_ge; lia);
      reflexivity.
  - destruct fuel as [|fuel]; [lia|]. cbn [poll_rpc_loop].
    unfold bind at 1, get at 1.
    replace (now w + 1 <? timeout) with true
      by (symmetry; apply Z.ltb_lt; lia).
    unfold bind at 1, sleep_half, modify. unfold bind at 1.
    rewrite find_rpc_reads, quiet_no_match by now apply quiet_slept.
    destruct (IH fuel timeout (slept env w)) as [Hloop Hnow];
      [now apply quiet_slept | simpl; lia | lia |].
    rewrite Hloop. rewrite <- !Nat.iter_succ_r. split; [reflexivity|].
    rewrite Nat.iter_succ_r, Hnow. simpl now. lia.
Qed.

(** A poll that never finds the endpoint: with the default budget of 32
    time units it sleeps 63 times, half a unit each, and returns [None]. *)
Lemma poll_rpc_times_out fuel w :
  quiet w ->
  (63 <= fuel)%nat ->
  poll_rpc env fuel db_name file_hash 32 w
  = (Ret None, Nat.iter 63 (slept env) w)
  /\ now (Nat.iter 63 (slept env) w) = now w + 63.
Proof.
  intros Hq Hfuel. unfold poll_rpc, bind at 1, get at 1.
  apply (poll_rpc_loop_times_out 63); [assumption | simpl; lia | assumption].
Qed.
End PollTimeout.

(** ** The coordinator when the host never registers *)

Section NeverRegisters.
Lemma quiet_env_poll fuel :
  (63 <= fuel)%nat ->
  poll_rpc client fuel (Some "test.i64") (Some "abc") 32 claimed
  = (Ret None, set_now 63 claimed).
Proof.
  intros Hfuel.
  destruct (poll_rpc_times_out client (Some "test.i64") (Some "abc")
              (fun w => rpc_endpoints w = Some [])
              (fun w H => H)
              (find_rpc_empty (Some "test.i64") (Some "abc"))
              fuel claimed eq_refl Hfuel) as [Hpoll _].
  rewrite Hpoll. reflexivity.
Qed.

Lemma quiet_env_pass fuel :
  (63 <= fuel)%nat ->
  resolve_once client fuel sample_request claimed
  = (Raise (NameError "idb_name"), set_now 63 claimed).
Proof.
  intros Hfuel. unfold resolve_once.
  rewrite (bind_ret_eq _ _ claimed None claimed) by reflexivity.
  apply bind_raise_eq.
  rewrite (bind_ret_eq _ _ claimed tt claimed) by reflexivity.
  change (db_name sample_request) with (Some "test.i64").
  change (file_hash sample_request) with (Some "abc").
  rewrite (bind_ret_eq _ _ _ _ _ (quiet_env_poll fuel Hfuel)).
  reflexivity.
Qed.

Lemma quiet_env_run fuel :
  (63 <= fuel)%nat ->
  run client fuel sample_url indexed
  = (Raise (NameError "idb_name"),
     set_now 63 (set_lock_file (Some (LTable [])) indexed)).
Proof.
  intros Hfuel. unfold run.
  rewrite (bind_ret_eq _ _ indexed sample_request indexed) by reflexivity.
  unfold finally.
  assert (Hbody :
    (lock_search client fuel (db_name sample_request)
       (file_hash sample_request) ;;;
     ok <- check_lock client (db_name sample_request)
             (file_hash sample_request) ;;
     (if negb ok
      then raise (RuntimeError
                    "Can only have request for single database at a time!")
      else ret tt) ;;;
     resolve_loop client fuel fuel sample_request) indexed
    = (Raise (NameError "idb_name"), set_now 63 claimed)).
  { rewrite (bind_ret_eq _ _ indexed tt claimed)
      by (apply (lock_search_absent client fuel _ _ indexed []);
          reflexivity).
    rewrite (bind_ret_eq _ _ claimed true claimed) by reflexivity.
    rewrite (bind_ret_eq _ _ claimed tt claimed) by reflexivity.
    destruct fuel as [|fuel']; [lia|]. cbn [resolve_loop].
    apply bind_raise_eq. now apply quiet_env_pass. }
  rewrite Hbody.
  rewrite (release_lock_absent client fuel (set_now 63 claimed)
             [("10", sample_row)]) by reflexivity.
  reflexivity.
Qed.

(** C8, as the code has it.  The host is launched and never registers.
    The poll gives up after 63 sleeps of half a time unit, inside its
    budget of 32 units, and returns [None].  The message for the exit
    with code -6 names a variable that does not exist, so [run] ends
    with [NameError] instead; its [finally] clause releases the claim,
    and [start] turns the exception into exit code -1.  No input at all
    makes the client exit with code -6. *)
Theorem poll_timeout_exits_with_minus_1 (fuel : nat) :
  (63 <= fuel)%nat ->
  let final := snd (start client fuel sample_url indexed) in
  fst (run client fuel sample_url indexed) = Raise (NameError "idb_name")
  /\ fst (start client fuel sample_url indexed) = Exit (-1)
  /\ now final = 63
  /\ table_of (lock_file final) = Some []
  /\ (forall env' fuel' argv w, fst (start env' fuel' argv w) <> Exit (-6)).
Proof.
  intros Hfuel final.
  assert (Hstart : start client fuel sample_url indexed
                   = (Exit (-1),
                      set_now 63 (set_lock_file (Some (LTable [])) indexed))).
  { unfold start, except_exception.
    rewrite (bind_ret_eq _ _ indexed tt indexed) by reflexivity.
    now rewrite quiet_env_run. }
  unfold final. rewrite Hstart, quiet_env_run by assumption.
  repeat split.
  intros env' fuel' argv w H.
  apply exits_start in H. vm_compute in H.
  repeat destruct H as [H|H]; try discriminate H. exact H.
Qed.
End NeverRegisters.

(** ** The coordinator when the endpoint is never reachable *)

Section NeverReachable.
Lemma zombie_pass_found fuel t lk :
  resolve_once zombie_env fuel sample_request (zombie_at t [dead_entry] lk)
  = (Ret false, zombie_at t [] lk).
Proof. reflexivity. Qed.

Lemma zombie_poll fuel t lk :
  poll_rpc zombie_env (S fuel) (Some "test.i64") (Some "abc") 32
    (zombie_at t [] lk)
  = (Ret (Some dead_endpoint), zombie_at (t + 1) [dead_entry] lk).
Proof.
  unfold poll_rpc, bind at 1, get at 1. cbn [poll_rpc_loop].
  unfold bind at 1, get at 1.
  change (now (zombie_at t [] lk)) with t.
  replace (t + 1 <? t + 2 * 32) with true
    by (symmetry; apply Z.ltb_lt; lia).
  reflexivity.
Qed.

Lemma zombie_pass_launch fuel t lk :
  resolve_once zombie_env (S fuel) sample_request (zombie_at t [] lk)
  = (Ret false, zombie_at (t + 1) [] lk).
Proof.
  unfold resolve_once.
  rewrite (bind_ret_eq _ _ (zombie_at t [] lk) None (zombie_at t [] lk))
    by reflexivity.
  rewrite (bind_ret_eq _ _ (zombie_at t [] lk) dead_endpoint
             (zombie_at (t + 1) [dead_entry] lk)); [reflexivity|].
  rewrite (bind_ret_eq _ _ (zombie_at t [] lk) tt (zombie_at t [] lk))
    by reflexivity.
  change (db_name sample_request) with (Some "test.i64").
  change (file_hash sample_request) with (Some "abc").
  now rewrite (bind_ret_eq _ _ _ _ _ (zombie_poll fuel t lk)).
Qed.

(** Every pass launches the host, finds its descriptor on the first poll,
    is refused, and deletes the descriptor; the clock shows how many
    passes there were. *)
Lemma zombie_loop fuel lk (passes : nat) : forall t,
  resolve_loop zombie_env (S fuel) passes sample_request (zombie_at t [] lk)
  = (NoFuel, zombie_at (t + Z.of_nat passes) [] lk).
Proof.
  induction passes as [|passes IH]; intros t; cbn [resolve_loop].
  - now rewrite Z.add_0_r.
  - rewrite (bind_ret_eq _ _ _ _ _ (zombie_pass_launch fuel t lk)).
    rewrite IH. do 2 f_equal. lia.
Qed.

Lemma zombie_run (fuel : nat) :
  run zombie_env fuel sample_url zombie_world
  = (NoFuel,
     match fuel with
     | O => claimed_by_10 zombie_world
     | S passes =>
         zombie_at (Z.of_nat passes) [] (Some (LTable [("10", sample_row)]))
     end).
Proof.
  unfold run.
  rewrite (bind_ret_eq _ _ zombie_world sample_request zombie_world)
    by reflexivity.
  unfold finally.
  rewrite (bind_ret_eq _ _ zombie_world tt (claimed_by_10 zombie_world))
    by (apply (lock_search_absent zombie_env fuel _ _ zombie_world []);
        reflexivity).
  rewrite (bind_ret_eq _ _ (claimed_by_10 zombie_world) true
             (claimed_by_10 zombie_world)) by reflexivity.
  rewrite (bind_ret_eq _ _ (claimed_by_10 zombie_world) tt
             (claimed_by_10 zombie_world)) by reflexivity.
  destruct fuel as [|passes]; cbn [resolve_loop]; [reflexivity|].
  change (claimed_by_10 zombie_world)
    with (zombie_at 0 [dead_entry] (Some (LTable [("10", sample_row)]))).
  rewrite (bind_ret_eq _ _ _ _ _ (zombie_pass_found (S passes) 0 _)).
  cbn match. now rewrite zombie_loop.
Qed.

(** C5, as the code has it.  The loop of [run] has no bound of its own.
    With a host that registers again after every eviction and never
    answers, the loop uses up any number of passes it is given: the clock
    has moved by one sleep for every pass after the first when the
    budget runs out.  No input at all makes the client exit with
    code -5. *)
Theorem retry_loop_has_no_bound (fuel : nat) :
  fst (run zombie_env fuel sample_url zombie_world) = NoFuel
  /\ now (snd (run zombie_env fuel sample_url zombie_world))
     = Z.of_nat (fuel - 1)
  /\ (forall env fuel' argv w, fst (start env fuel' argv w) <> Exit (-5))
  /\ (forall env fuel' url w, fst (run env fuel' url w) <> Exit (-5)).
Proof.
  rewrite zombie_run. split; [reflexivity|]. split.
  - destruct fuel as [|passes]; [reflexivity|].
    simpl snd. change (now (zombie_at ?t _ _)) with t.
    now rewrite Nat.sub_succ, Nat.sub_0_r.
  - split; intros env fuel' arg w H;
      [apply exits_start in H | apply exits_run in H];
      vm_compute in H;
      repeat destruct H as [H|H]; try discriminate H; exact H.
Qed.
End NeverReachable.

(** ** More worked instances *)

(** The host never registers and the budget of the model is 64. *)
Lemma poll_timeout_exits_with_minus_1_witness :
  let final := snd (start client 64 sample_url indexed) in
  fst (run client 64 sample_url indexed) = Raise (NameError "idb_name")
  /\ fst (start client 64 sample_url indexed) = Exit (-1)
  /\ now final = 63
  /\ table_of (lock_file final) = Some []
  /\ (forall env' fuel' argv w, fst (start env' fuel' argv w) <> Exit (-6)).
Proof.
  apply (poll_timeout_exits_with_minus_1 64). lia.
Defined.

(** * Further properties *)

(** ** Dictionaries, continued *)

Section MoreDictFacts.
Context {V : Type}.
Implicit Types (d : list (string * V)) (k : string) (v : V).

Lemma dict_get_Some_In k v d :
  dict_get String.eqb k d = Some v -> In (k, v) d.
Proof.
  induction d as [|[k0 v0] d IH]; simpl; [discriminate|].
  destruct (String.eqb_spec k k0) as [->|].
  - intros [= ->]. now left.
  - intros H. right. now apply IH.
Qed.

(** A member appended to a loaded object is a write to the dictionary. *)
Lemma load_object_snoc d k v :
  NoDup (map fst d) ->
  load_object (d ++ [(k, v)]) = dict_set String.eqb k v d.
Proof.
  intros Hnd. unfold load_object. rewrite fold_left_app. simpl.
  fold (load_object d). now rewrite load_object_NoDup.
Qed.

Lemma dict_get_pop k k' d :
  NoDup (map fst d) ->
  dict_get String.eqb k (dict_pop String.eqb k' d) =
  if (k =? k')%string then None else dict_get String.eqb k d.
Proof.
  induction d as [|[k0 v0] d IH]; simpl; intros Hnd.
  - now destruct (k =? k')%string.
  - inversion Hnd as [|? ? Hk0 Hnd']; subst.
    destruct (String.eqb_spec k' k0) as [->|Hne]; simpl.
    + destruct (String.eqb_spec k k0) as [->|]; [|reflexivity].
      now apply dict_get_None.
    + rewrite IH by assumption.
      destruct (String.eqb_spec k k0) as [->|]; [|reflexivity].
      destruct (String.eqb_spec k0 k'); congruence.
Qed.

Lemma dict_pop_keys k d x :
  In x (map fst (dict_pop String.eqb k d)) -> In x (map fst d).
Proof.
  induction d as [|[k0 v0] d IH]; simpl; [tauto|].
  destruct (k =? k0)%string; simpl; [auto|]. intros [?|?]; auto.
Qed.

Lemma dict_pop_keys_NoDup k d :
  NoDup (map fst d) -> NoDup (map fst (dict_pop String.eqb k d)).
Proof.
  induction d as [|[k0 v0] d IH]; simpl; intros Hnd; [constructor|].
  inversion Hnd as [|? ? Hk0 Hnd']; subst.
  destruct (k =? k0)%string; simpl; [assumption|].
  constructor; [|auto]. intros Hin. apply Hk0. exact (dict_pop_keys _ _ _ Hin).
Qed.
End MoreDictFacts.

(** ** Resolution lock: what a claim and a release write *)

Section LockTable.

(** X1.  With no marker in the way and a readable table, [lock_search]
    returns normally, leaves no marker, and the table then maps the
    caller's id to the new claim, also when a row under that id was there
    before; every other row is as it was. *)
Theorem lock_search_records_claim
    (env : environ) (fuel : nat) (idb_name file_hash : option string)
    (w : world) (locks : list (string * row)) :
  tmp_lock_file w = None ->
  table_of (lock_file w) = Some locks ->
  exists w' locks',
    lock_search env fuel idb_name file_hash w = (Ret tt, w')
    /\ tmp_lock_file w' = None
    /\ table_of (lock_file w') = Some locks'
    /\ dict_get String.eqb (str_of_int (getpid env)) locks'
       = Some (idb_name, file_hash)
    /\ (forall k, k <> str_of_int (getpid env) ->
                  dict_get String.eqb k locks' = dict_get String.eqb k locks).
Proof.
  intros Htmp Htab.
  pose proof (table_of_keys _ _ Htab) as Hnd.
  eexists. exists (dict_set String.eqb (str_of_int (getpid env))
                     (idb_name, file_hash) locks).
  split; [apply (lock_search_absent _ _ _ _ _ _ Htmp Htab)|].
  split; [destruct w; assumption|].
  split; [destruct w; simpl; now rewrite load_object_snoc|].
  split.
  - now rewrite dict_get_set, String.eqb_refl.
  - intros k Hk. rewrite dict_get_set.
    destruct (String.eqb_spec k (str_of_int (getpid env))); congruence.
Qed.

(** X2.  With no marker in the way and a readable table, [release_lock]
    returns normally, leaves no marker, and the table then has no row
    under the caller's id; every other row is as it was. *)
Theorem release_lock_removes_own_row
    (env : environ) (fuel : nat) (w : world) (locks : list (string * row)) :
  tmp_lock_file w = None ->
  table_of (lock_file w) = Some locks ->
  exists w' locks',
    release_lock env fuel w = (Ret tt, w')
    /\ tmp_lock_file w' = None
    /\ table_of (lock_file w') = Some locks'
    /\ dict_get String.eqb (str_of_int (getpid env)) locks' = None
    /\ (forall k, k <> str_of_int (getpid env) ->
                  dict_get String.eqb k locks' = dict_get String.eqb k locks).
Proof.
  intros Htmp Htab.
  pose proof (table_of_keys _ _ Htab) as Hnd.
  set (pid := str_of_int (getpid env)).
  eexists. exists (dict_pop String.eqb pid locks).
  assert (Hpop : (if dict_mem String.eqb pid locks
                  then dict_pop String.eqb pid locks else locks)
                 = dict_pop String.eqb pid locks).
  { destruct (dict_mem String.eqb pid locks) eqn:E; [reflexivity|].
    apply dict_mem_false in E. clear -E.
    induction locks as [|[k0 v0] d IH]; simpl in *; [reflexivity|].
    destruct (pid =? k0)%string; [discriminate|]. now rewrite <- IH. }
  split.
  { rewrite (release_lock_absent _ _ _ _ Htmp Htab). fold pid.
    rewrite Hpop. reflexivity. }
  split; [destruct w; assumption|].
  split.
  { destruct w; simpl. rewrite load_object_NoDup; [reflexivity|].
    now apply dict_pop_keys_NoDup. }
  split.
  - now rewrite dict_get_pop, String.eqb_refl.
  - intros k Hk. rewrite dict_get_pop by assumption.
    destruct (String.eqb_spec k pid); congruence.
Qed.

(** X3.  A lock table that cannot be parsed is not written over: with no
    marker in the way, [lock_search] and [release_lock] end with the
    exception of [json.load], and the world is as before, their own
    marker removed again. *)
Theorem corrupt_table_is_left_alone
    (env : environ) (fuel : nat) (idb_name file_hash : option string)
    (w : world) :
  tmp_lock_file w = None ->
  lock_file w = Some LEmpty ->
  lock_search env fuel idb_name file_hash w = (Raise JSONDecodeError, w)
  /\ release_lock env fuel w = (Raise JSONDecodeError, w).
Proof.
  intros Htmp Hlock.
  assert (Hopen : open_table env fuel w
                  = (Raise JSONDecodeError, set_tmp_lock_file (Some LEmpty) w)).
  { unfold open_table, bind. rewrite not_exist_wait_absent by assumption.
    destruct w as [t tmp lk reg roots h2 h1 ex ih gl]. simpl in Htmp, Hlock.
    subst tmp lk. reflexivity. }
  split; unfold lock_search, release_lock, except_reraise, bind at 1;
    rewrite Hopen;
    destruct w as [t tmp lk reg roots h2 h1 ex ih gl]; simpl in Htmp, Hlock;
    subst tmp lk; reflexivity.
Qed.
End LockTable.

(** ** Who ends the process *)

Section NeverExits.

Lemma no_exit_remove_tmp : exits [] remove_tmp.
Proof. intros w c. unfold remove_tmp. now destruct (tmp_lock_file w). Qed.

Lemma no_exit_replace_tmp : exits [] replace_tmp.
Proof. intros w c. unfold replace_tmp. now destruct (tmp_lock_file w). Qed.

Lemma no_exit_read_lock_table : exits [] read_lock_table.
Proof.
  intros w c. unfold read_lock_table. now destruct (lock_file w) as [[|]|].
Qed.

Hint Resolve no_exit_remove_tmp no_exit_replace_tmp no_exit_read_lock_table
  : exits.

Lemma no_exit_not_exist_wait_loop env fuel exists_ max_wait t0 :
  exits [] (not_exist_wait_loop env fuel exists_ max_wait t0).
Proof.
  induction fuel as [|fuel IH]; cbn [not_exist_wait_loop];
    unfold sleep_half; exits_all.
Qed.

Hint Resolve no_exit_not_exist_wait_loop : exits.

Lemma no_exit_open_table env fuel : exits [] (open_table env fuel).
Proof. unfold open_table, not_exist_wait, touch_tmp. exits_all. Qed.

Hint Resolve no_exit_open_table : exits.

Lemma no_exit_lock_search env fuel idb_name file_hash :
  exits [] (lock_search env fuel idb_name file_hash).
Proof. unfold lock_search, cleanup_tmp, dump_tmp. exits_all. Qed.

Lemma no_exit_release_lock env fuel : exits [] (release_lock env fuel).
Proof. unfold release_lock, cleanup_tmp, dump_tmp. exits_all. Qed.

Lemma no_exit_check_lock env idb_name file_hash :
  exits [] (check_lock env idb_name file_hash).
Proof. unfold check_lock. exits_all. Qed.

Lemma no_exit_find_rpc db_name file_hash :
  exits [] (find_rpc db_name file_hash).
Proof.
  unfold find_rpc. exits_all.
  apply exits_lift. intros c. apply find_rpc_loop_no_exit.
Qed.

Hint Resolve no_exit_find_rpc : exits.

Lemma no_exit_poll_rpc env fuel db_name file_hash limit :
  exits [] (poll_rpc env fuel db_name file_hash limit).
Proof.
  unfold poll_rpc. apply exits_bind; [exits_all|]. intros t.
  generalize (t + 2 * limit). intros timeout.
  induction fuel as [|fuel IH]; cbn [poll_rpc_loop]; unfold sleep_half;
    exits_all.
Qed.

Lemma no_exit_verify_db p file_hash : exits [] (verify_db p file_hash).
Proof. unfold verify_db. exits_all. Qed.

Hint Resolve no_exit_verify_db : exits.

Lemma no_exit_scan_files files db_name file_hash :
  exits [] (scan_files files db_name file_hash).
Proof. induction files as [|item rest IH]; cbn [scan_files]; exits_all. Qed.

Lemma no_exit_verify_first candidates file_hash :
  exits [] (verify_first candidates file_hash).
Proof.
  induction candidates as [|c rest IH]; cbn [verify_first]; exits_all.
Qed.

Hint Resolve no_exit_scan_files no_exit_verify_first : exits.

Lemma no_exit_search_roots roots db_name file_hash :
  exits [] (search_roots roots db_name file_hash).
Proof. induction roots as [|item rest IH]; cbn [search_roots]; exits_all. Qed.

Hint Resolve no_exit_search_roots : exits.

Lemma no_exit_search_history db_name file_hash :
  exits [] (search_history db_name file_hash).
Proof.
  unfold search_history, get_history_v2, get_history. exits_all.
Qed.

Lemma no_exit_search_idb_path db_name file_hash :
  exits [] (search_idb_path db_name file_hash).
Proof. unfold search_idb_path. exits_all. Qed.

(** X4.  The lock, the registry and the two tiers of the locator never end
    the process: whatever the world, none of [lock_search], [release_lock],
    [check_lock], [find_rpc], [poll_rpc], [search_history] and
    [search_idb_path] comes back with a [sys.exit]. *)
Theorem only_the_coordinator_exits
    (env : environ) (fuel : nat) (db_name file_hash : option string)
    (w : world) (c : Z) :
  fst (lock_search env fuel db_name file_hash w) <> Exit c
  /\ fst (release_lock env fuel w) <> Exit c
  /\ fst (check_lock env db_name file_hash w) <> Exit c
  /\ fst (find_rpc db_name file_hash w) <> Exit c
  /\ fst (poll_rpc env fuel db_name file_hash 32 w) <> Exit c
  /\ fst (search_history db_name file_hash w) <> Exit c
  /\ fst (search_idb_path db_name file_hash w) <> Exit c.
Proof.
  repeat split; intros H.
  - exact (no_exit_lock_search _ _ _ _ _ _ H).
  - exact (no_exit_release_lock _ _ _ _ H).
  - exact (no_exit_check_lock _ _ _ _ _ H).
  - exact (no_exit_find_rpc _ _ _ _ H).
  - exact (no_exit_poll_rpc _ _ _ _ _ _ _ H).
  - exact (no_exit_search_history _ _ _ _ H).
  - exact (no_exit_search_idb_path _ _ _ _ H).
Qed.
End NeverExits.

(** ** Resolution lock: the marker *)

Section Marker.

(** The pattern that [lock_search] and [release_lock] share: read the
    table under the marker, write the updated table to the marker file,
    move it over the table; on an exception remove the marker. *)
Lemma guarded_update_leaves_no_marker env fuel
    (update : list (string * row) -> list (key * row)) w :
  let r := except_reraise
             (locks <- open_table env fuel ;;
              dump_tmp (update locks) ;;; replace_tmp)
             cleanup_tmp w in
  fst r <> NoFuel ->
  tmp_lock_file (snd r) = None
  /\ (fst r = Ret tt ->
      exists locks,
        lock_file (snd r) = Some (LTable (as_members (update locks)))).
Proof.
  intros r Hfuel. subst r. revert Hfuel. unfold except_reraise.
  destruct ((locks <- open_table env fuel ;;
             dump_tmp (update locks) ;;; replace_tmp) w)
    as [[[]|e|c|] w1] eqn:Hbody; simpl.
  - intros _. revert Hbody. unfold bind at 1.
    destruct (open_table env fuel w) as [[locks|e|c|] w0]; try discriminate.
    unfold bind, dump_tmp, modify, replace_tmp. simpl.
    intros [= <-]. split; [reflexivity|]. intros _. now exists locks.
  - intros _.
    assert (Hclean : exists w2, (cleanup_tmp ;;; raise e) w1
                                = (@Raise unit e, w2)
                                /\ tmp_lock_file w2 = None).
    { unfold cleanup_tmp, bind, get, tmp_lock_exists, remove_tmp, raise.
      destruct (tmp_lock_file w1) eqn:E; simpl; rewrite ?E.
      - eexists. split; reflexivity.
      - exists w1. split; [reflexivity | assumption]. }
    destruct Hclean as (w2 & -> & Htmp). simpl. split; [assumption|].
    discriminate.
  - exfalso.
    assert (Hx : exits [] (locks <- open_table env fuel ;;
                           dump_tmp (update locks) ;;; replace_tmp)).
    { apply exits_bind; [apply no_exit_open_table|]. intros locks.
      apply exits_bind; [apply exits_modify|]. intros _.
      apply no_exit_replace_tmp. }
    apply (Hx w c). now rewrite Hbody.
  - intros H. now contradiction H.
Qed.

End Marker.

(** ** Resolution lock: the verdict in general *)

Section Verdict.

(** X6.  When the caller's row is in the table, [check_lock] returns
    [False] exactly when some other process has a row with the same name
    and hash and an id that, as text, sorts below the caller's.  Rows for
    other requests and the order of the rows do not matter. *)
Theorem check_lock_false_iff_outranked
    (env : environ) (name hash : option string) (w : world)
    (locks : list (string * row)) (r : row) :
  let our_pid := str_of_int (getpid env) in
  table_of (lock_file w) = Some locks ->
  In (our_pid, r) locks ->
  exists b,
    check_lock env name hash w = (Ret b, w)
    /\ (b = false <->
        exists pid, In (pid, (name, hash)) locks
                    /\ pid <> our_pid
                    /\ String.ltb pid our_pid = true).
Proof.
  intros our_pid Htab Hin.
  rewrite (check_lock_verdict env name hash w locks r Htab Hin).
  fold our_pid. eexists. split; [reflexivity|].
  rewrite check_lock_loop_spec, negb_false_iff, existsb_exists.
  split.
  - intros [[pid [n h]] [Hrow Hout]].
    unfold outranks, str_gt in Hout. simpl in Hout.
    apply andb_prop in Hout. destruct Hout as [Hout Hcmp].
    apply andb_prop in Hout. destruct Hout as [Hout Hother].
    apply andb_prop in Hout. destruct Hout as [Hn Hh].
    apply opt_eqb_eq in Hn, Hh. subst n h.
    exists pid. repeat split; [assumption | | assumption].
    intros ->. now rewrite String.eqb_refl in Hother.
  - intros (pid & Hrow & Hne & Hlt).
    exists (pid, (name, hash)). split; [assumption|].
    unfold outranks, str_gt. simpl. rewrite !opt_eqb_refl, Hlt. simpl.
    destruct (String.eqb_spec pid our_pid); [contradiction | reflexivity].
Qed.

(** X7.  A claim followed by the check: with no marker in the way and a
    readable table, [lock_search] then [check_lock] returns a verdict and
    never the error of a missing claim; when no row of the table before
    the claim is for the same name and hash, the verdict is [True]. *)
Theorem claim_then_check
    (env : environ) (fuel : nat) (name hash : option string) (w : world)
    (locks : list (string * row)) :
  tmp_lock_file w = None ->
  table_of (lock_file w) = Some locks ->
  exists b w',
    (lock_search env fuel name hash ;;; check_lock env name hash) w
    = (Ret b, w')
    /\ ((forall pid, ~ In (pid, (name, hash)) locks) -> b = true).
Proof.
  intros Htmp Htab.
  pose proof (table_of_keys _ _ Htab) as Hnd.
  set (pid := str_of_int (getpid env)).
  set (locks' := dict_set String.eqb pid (name, hash) locks).
  set (w' := set_lock_file
               (Some (LTable (locks ++ [(pid, (name, hash))]))) w).
  assert (Htab' : table_of (lock_file w') = Some locks').
  { unfold w', locks'. destruct w; simpl. now rewrite load_object_snoc. }
  assert (Hown : In (pid, (name, hash)) locks').
  { apply dict_get_Some_In. unfold locks'.
    now rewrite dict_get_set, String.eqb_refl. }
  exists (check_lock_loop locks' pid name hash false), w'.
  split.
  - unfold bind.
    rewrite (lock_search_absent _ _ _ _ _ _ Htmp Htab). fold pid w'.
    exact (check_lock_verdict env name hash w' locks' _ Htab' Hown).
  - intros Halone. apply check_lock_loop_lowest.
    intros other Hother.
    assert (other = pid) as ->; [|apply ltb_irrefl].
    destruct (String.eqb_spec other pid) as [|Hne]; [assumption|].
    exfalso. apply (Halone other). apply dict_get_Some_In.
    assert (Hget : dict_get String.eqb other locks' = Some (name, hash)).
    { assert (Hnd' : NoDup (map fst locks'))
        by now apply dict_set_keys_NoDup.
      clear -Hother Hnd'. induction locks' as [|[k0 v0] d IH];
        simpl in *; [contradiction|].
      inversion Hnd' as [|? ? Hk0 Hnd'']; subst.
      destruct Hother as [[= -> ->]|Hin].
      - now rewrite String.eqb_refl.
      - destruct (String.eqb_spec other k0) as [->|]; [|auto].
        exfalso. apply Hk0. change k0 with (fst (k0, (name, hash))).
        now apply in_map. }
    unfold locks' in Hget. rewrite dict_get_set in Hget.
    destruct (String.eqb_spec other pid); [contradiction | assumption].
Qed.
End Verdict.

(** ** Resolution lock: the wait for the marker *)

Section MarkerWait.
Variables (env : environ) (exists_ : world -> bool).

(** [S k] more sleeps take the clock past the deadline. *)
Lemma not_exist_wait_loop_bounded (m : Z) (k : nat) : forall fuel t0 w,
  0 < m ->
  now w + Z.of_nat (S k) = t0 + 2 * m + 1 ->
  (k < fuel)%nat ->
  exists o w',
    not_exist_wait_loop env fuel exists_ (Some m) t0 w = (o, w')
    /\ ((o = Ret tt /\ exists_ w' = false /\ now w <= now w' <= t0 + 2 * m)
        \/ (o = Raise out_of_time /\ now w' = t0 + 2 * m + 1)).
Proof.
  induction k as [|k IH]; intros fuel t0 w Hpos Hnow Hfuel;
    (destruct fuel as [|fuel]; [lia|]); cbn [not_exist_wait_loop];
    unfold bind at 1, get at 1;
    destruct (exists_ w) eqn:Hex;
    try (exists (Ret tt), w; split; [reflexivity|]; left;
         repeat split; [assumption | lia | lia]).
  - (* the last sleep *)
    unfold bind, sleep_half, modify, get.
    change (now (slept env w)) with (now w + 1).
    assert (Hm : m <> 0) by lia.
    replace (m =? 0) with false by (symmetry; now apply Z.eqb_neq).
    replace (now w + 1 >? t0 + 2 * m) with true
      by (symmetry; apply Z.gtb_lt; lia).
    eexists. eexists. split; [reflexivity|]. right.
    split; [reflexivity|].
    change (now (slept env w)) with (now w + 1). lia.
  - unfold bind at 1, sleep_half, modify. unfold bind at 1, get at 1.
    change (now (slept env w)) with (now w + 1).
    replace (now w + 1 >? t0 + 2 * m) with false
      by (rewrite Z.gtb_ltb; symmetry; apply Z.ltb_ge; lia).
    rewrite andb_false_r.
    destruct (IH fuel t0 (slept env w)) as (o & w' & Hloop & Hres);
      [assumption | change (now (slept env w)) with (now w + 1); lia | lia |].
    exists o, w'. split; [assumption|].
    change (now (slept env w)) with (now w + 1) in Hres.
    destruct Hres as [(Ho & Hgone & Hclock)|Hout]; [left | right; assumption].
    repeat split; [assumption | assumption | lia | lia].
Qed.


Lemma not_exist_wait_loop_zero fuel : forall t0 w,
  not_exist_wait_loop env fuel exists_ (Some 0) t0 w
  = not_exist_wait_loop env fuel exists_ None t0 w.
Proof.
  induction fuel as [|fuel IH]; intros t0 w; cbn [not_exist_wait_loop];
    [reflexivity|].
  unfold bind, get, sleep_half, modify.
  destruct (exists_ w); [|reflexivity].
  change (negb (0 =? 0)) with false. cbn [andb]. apply IH.
Qed.

Lemma not_exist_wait_loop_forever fuel : forall t0 w,
  (forall w, exists_ w = true -> exists_ (slept env w) = true) ->
  exists_ w = true ->
  fst (not_exist_wait_loop env fuel exists_ None t0 w) = NoFuel.
Proof.
  induction fuel as [|fuel IH]; intros t0 w Hstays Hex;
    cbn [not_exist_wait_loop]; unfold bind at 1, get at 1; rewrite Hex;
    [reflexivity|].
  unfold bind at 1, sleep_half, modify. unfold bind at 1, get at 1.
  apply IH; [assumption | now apply Hstays].
Qed.

(** X9.  A wait of zero is no bound at all: [max_wait = 0] is false in the
    test [if max_wait and ...], so the call behaves as with no [max_wait],
    and while nobody removes the marker it never comes back, however long
    it is given. *)
Theorem not_exist_wait_zero_is_unbounded (fuel : nat) (w : world) :
  not_exist_wait env fuel exists_ (Some 0) w
  = not_exist_wait env fuel exists_ None w
  /\ ((forall w, exists_ w = true -> exists_ (slept env w) = true) ->
      exists_ w = true ->
      fst (not_exist_wait env fuel exists_ (Some 0) w) = NoFuel).
Proof.
  assert (Heq : not_exist_wait env fuel exists_ (Some 0) w
                = not_exist_wait env fuel exists_ None w).
  { unfold not_exist_wait, bind, get. apply not_exist_wait_loop_zero. }
  split; [exact Heq|]. intros Hstays Hex. rewrite Heq.
  unfold not_exist_wait, bind at 1, get at 1.
  now apply not_exist_wait_loop_forever.
Qed.
End MarkerWait.

(** ** Endpoint registry: what a scan returns *)

Section RegistryMatches.

(** What [match_endpoint] asks of a descriptor. *)
Lemma match_endpoint_Some endpoint db_name file_hash address :
  match_endpoint endpoint db_name file_hash = Ret (Some address) ->
  exists members,
    endpoint = JObj members
    /\ json_get endpoint "address" = Ret address
    /\ truthy address = true
    /\ (exists v, json_get endpoint "file_hash" = Ret v
                  /\ json_eq_str v file_hash = true)
    /\ (truthy_str db_name = true ->
        exists v, json_get endpoint "file_name" = Ret v
                  /\ json_eq_str v db_name = true).
Proof.
  unfold match_endpoint.
  destruct endpoint as [|b|z|s|items|members];
    try (simpl; discriminate);
    try (destruct b; simpl; discriminate);
    try (simpl; destruct (z =? 0); simpl; discriminate).
  - destruct s; simpl; [discriminate|].
    destruct (truthy_str db_name); simpl; discriminate.
  - destruct items; simpl; [discriminate|].
    destruct (truthy_str db_name); simpl; discriminate.
  - intros H. exists members.
    destruct members as [|m0 members']; [simpl in H; discriminate|].
    set (endpoint := JObj (m0 :: members')) in *.
    change (truthy endpoint) with true in H.
    change (len endpoint) with (@Ret nat (S (List.length members'))) in H.
    cbn [negb obind Nat.eqb] in H.
    destruct (truthy_str db_name) eqn:Hname.
    + destruct (json_get endpoint "file_name") as [v| | |] eqn:Hfn;
        cbn [obind] in H; try discriminate.
      destruct (json_eq_str v db_name) eqn:Hv; cbn [negb obind] in H;
        [|discriminate].
      destruct (json_get endpoint "file_hash") as [v'| | |] eqn:Hfh;
        cbn [obind] in H; try discriminate.
      destruct (json_eq_str v' file_hash) eqn:Hv'; cbn [negb] in H;
        [|discriminate].
      destruct (json_get endpoint "address") as [a| | |] eqn:Ha;
        cbn [obind] in H; try discriminate.
      destruct (truthy a) eqn:Hta; cbn [negb] in H; [|discriminate].
      injection H as <-.
      repeat split; try reflexivity; try assumption; eauto.
    + cbn [obind] in H.
      destruct (json_get endpoint "file_hash") as [v'| | |] eqn:Hfh;
        cbn [obind] in H; try discriminate.
      destruct (json_eq_str v' file_hash) eqn:Hv'; cbn [negb] in H;
        [|discriminate].
      destruct (json_get endpoint "address") as [a| | |] eqn:Ha;
        cbn [obind] in H; try discriminate.
      destruct (truthy a) eqn:Hta; cbn [negb] in H; [|discriminate].
      injection H as <-.
      repeat split; try reflexivity; try assumption; eauto; discriminate.
Qed.

Lemma find_rpc_loop_Some entries db_name file_hash address p :
  find_rpc_loop entries db_name file_hash = Ret (Some (address, p)) ->
  exists endpoint,
    In (p, DJson endpoint) entries
    /\ match_endpoint endpoint db_name file_hash = Ret (Some address).
Proof.
  induction entries as [|[q f] rest IH]; simpl; [discriminate|].
  destruct f as [| |j]; simpl; try discriminate.
  destruct (match_endpoint j db_name file_hash) as [[a|]| | |] eqn:Hm;
    simpl; try discriminate.
  - intros [= <- <-]. exists j. split; [now left | assumption].
  - intros H. destruct (IH H) as (endpoint & Hin & Hmatch).
    exists endpoint. split; [now right | assumption].
Qed.

(** X10.  What [find_rpc] returns is in the registry and fits the
    request: the path is that of a descriptor file holding a JSON object
    whose [file_hash] equals the requested hash, whose [file_name] equals
    the requested name when a name is given, and whose [address] is the
    returned one and is not empty.  The scan changes nothing. *)
Theorem find_rpc_returns_a_match
    (db_name file_hash : option string) (w w' : world)
    (address : json) (p : string) :
  find_rpc db_name file_hash w = (Ret (Some (address, p)), w') ->
  w' = w
  /\ exists entries members,
      rpc_endpoints w = Some entries
      /\ In (p, DJson (JObj members)) entries
      /\ json_get (JObj members) "address" = Ret address
      /\ truthy address = true
      /\ (exists v, json_get (JObj members) "file_hash" = Ret v
                    /\ json_eq_str v file_hash = true)
      /\ (truthy_str db_name = true ->
          exists v, json_get (JObj members) "file_name" = Ret v
                    /\ json_eq_str v db_name = true).
Proof.
  intros H. rewrite find_rpc_reads in H. injection H as Hres <-.
  split; [reflexivity|].
  unfold find_rpc, bind, get, lift, ret in Hres.
  destruct (rpc_endpoints w) as [entries|]; [|discriminate].
  simpl in Hres.
  destruct (find_rpc_loop_Some _ _ _ _ _ Hres) as (endpoint & Hin & Hmatch).
  destruct (match_endpoint_Some _ _ _ _ Hmatch)
    as (members & -> & Haddr & Htruthy & Hhash & Hname).
  exists entries, members. repeat split; assumption.
Qed.

(** X11.  The first descriptor that fits is the one returned: when no
    entry listed before it fits or fails to load, the scan returns it and
    does not open what is listed after it, so that a broken file further
    down does no harm. *)
Theorem find_rpc_returns_first_match
    (db_name file_hash : option string) (w : world)
    (before rest : list (string * descriptor_file))
    (p : string) (endpoint address : json) :
  rpc_endpoints w = Some (before ++ (p, DJson endpoint) :: rest) ->
  find_rpc_loop before db_name file_hash = Ret None ->
  match_endpoint endpoint db_name file_hash = Ret (Some address) ->
  find_rpc db_name file_hash w = (Ret (Some (address, p)), w).
Proof.
  intros Hdir Hbefore Hmatch.
  unfold find_rpc, bind, get, lift. rewrite Hdir.
  rewrite (find_rpc_loop_app _ _ _ _ Hbefore). simpl. now rewrite Hmatch.
Qed.
End RegistryMatches.

(** ** Endpoint registry: the poll, for every environment *)

Section PollBound.
Variables (env : environ) (db_name file_hash : option string).

Lemma match_endpoint_fuel endpoint :
  match_endpoint endpoint db_name file_hash <> NoFuel.
Proof.
  unfold match_endpoint, obind, json_get, len.
  destruct endpoint as [|b|z|s|items|members]; simpl;
    repeat match goal with
           | |- context [if ?b then _ else _] => destruct b; simpl
           | |- context [match dict_get ?e ?k ?d with _ => _ end] =>
               destruct (dict_get e k d); simpl
           end; discriminate.
Qed.

Lemma find_rpc_loop_fuel entries :
  find_rpc_loop entries db_name file_hash <> NoFuel.
Proof.
  induction entries as [|[p f] rest IH]; simpl; [discriminate|].
  destruct f as [| |j]; simpl; try discriminate.
  pose proof (match_endpoint_fuel j) as Hm.
  destruct (match_endpoint j db_name file_hash) as [[a|]|e|c'|]; simpl;
    try discriminate; [assumption | contradiction].
Qed.

Lemma find_rpc_fuel w : fst (find_rpc db_name file_hash w) <> NoFuel.
Proof.
  unfold find_rpc, bind, get, lift, ret.
  destruct (rpc_endpoints w); simpl; [apply find_rpc_loop_fuel | discriminate].
Qed.

(** [k] polls are left before the deadline. *)
Lemma poll_rpc_loop_bounded (k : nat) : forall fuel timeout w,
  now w + Z.of_nat k + 1 = timeout ->
  (k <= fuel)%nat ->
  exists o w',
    poll_rpc_loop env fuel db_name file_hash timeout w = (o, w')
    /\ o <> NoFuel
    /\ now w <= now w' <= now w + Z.of_nat k
    /\ (o = Ret None -> now w' = now w + Z.of_nat k)
    /\ (forall r, o = Ret (Some r) ->
                  now w < now w'
                  /\ fst (find_rpc db_name file_hash w') = Ret (Some r)).
Proof.
  induction k as [|k IH]; intros fuel timeout w Ht Hfuel.
  - exists (Ret None), w.
    split.
    { destruct fuel; cbn [poll_rpc_loop]; unfold bind, get;
        replace (now w + 1 <? timeout) with false
          by (symmetry; apply Z.ltb_ge; lia);
        reflexivity. }
    split; [discriminate|]. split; [simpl; lia|].
    split; [intros _; simpl; lia | discriminate].
  - destruct fuel as [|fuel]; [lia|]. cbn [poll_rpc_loop].
    unfold bind at 1, get at 1.
    replace (now w + 1 <? timeout) with true
      by (symmetry; apply Z.ltb_lt; lia).
    unfold bind at 1, sleep_half, modify. unfold bind at 1.
    rewrite find_rpc_reads.
    pose proof (find_rpc_fuel (slept env w)) as Hnf.
    assert (Hclock : now (slept env w) = now w + 1) by reflexivity.
    destruct (fst (find_rpc db_name file_hash (slept env w)))
      as [[r|]|e|c|] eqn:Hfind.
    + exists (Ret (Some r)), (slept env w).
      split; [reflexivity|]. split; [discriminate|].
      split; [rewrite Hclock; lia|]. split; [discriminate|].
      intros r' [= <-]. split; [rewrite Hclock; lia | assumption].
    + destruct (IH fuel timeout (slept env w)) as (o & w' & Hloop & Hrest);
        [rewrite Hclock; lia | lia |].
      exists o, w'. split; [assumption|].
      rewrite Hclock in Hrest.
      destruct Hrest as (Ho & Hbound & Hnone & Hsome).
      split; [assumption|]. split; [lia|].
      split; [intros H; specialize (Hnone H); lia|].
      intros r Hr. destruct (Hsome r Hr). split; [lia | assumption].
    + exists (Raise e), (slept env w).
      split; [reflexivity|]. split; [discriminate|].
      split; [rewrite Hclock; lia|]. split; discriminate.
    + exists (Exit c), (slept env w).
      split; [reflexivity|]. split; [discriminate|].
      split; [rewrite Hclock; lia|]. split; discriminate.
    + contradiction.
Qed.

(** X12.  The poll is bounded, whatever the host and others do.  With the
    default budget of 32 time units [poll_rpc] comes back after at most 63
    sleeps of half a unit.  When it returns an endpoint, it has slept at
    least once, also when the descriptor was there from the start, and
    the endpoint is what a scan of the registry at that moment returns;
    when it returns [None], it has slept 63 times. *)
Theorem poll_rpc_is_bounded (fuel : nat) (w : world) :
  (63 <= fuel)%nat ->
  exists o w',
    poll_rpc env fuel db_name file_hash 32 w = (o, w')
    /\ o <> NoFuel
    /\ now w <= now w' <= now w + 63
    /\ (o = Ret None -> now w' = now w + 63)
    /\ (forall r, o = Ret (Some r) ->
                  now w < now w'
                  /\ fst (find_rpc db_name file_hash w') = Ret (Some r)).
Proof.
  intros Hfuel. unfold poll_rpc, bind at 1, get at 1.
  apply (poll_rpc_loop_bounded 63); [simpl; lia | assumption].
Qed.
End PollBound.

(** ** Endpoint registry: eviction *)

Section Eviction.

Lemma remove_entry_spec p entries : forall entries',
  NoDup (map fst entries) ->
  remove_entry p entries = Some entries' ->
  ~ In p (map fst entries')
  /\ (forall q f, q <> p -> (In (q, f) entries' <-> In (q, f) entries)).
Proof.
  induction entries as [|[q0 f0] rest IH]; simpl; intros entries' Hnd;
    [discriminate|].
  inversion Hnd as [|? ? Hq0 Hnd']; subst.
  destruct (String.eqb_spec p q0) as [->|Hne].
  - intros [= <-]. split; [assumption|].
    intros q f Hq. split; [auto|]. intros [[= -> ->]|H]; [contradiction|auto].
  - destruct (remove_entry p rest) as [rest'|]; [|discriminate].
    intros [= <-]. destruct (IH rest' Hnd' eq_refl) as [Hout Hsame].
    split.
    + simpl. intros [?|?]; [congruence | contradiction].
    + intros q f Hq. simpl. now rewrite (Hsame q f Hq).
Qed.

Lemma remove_entry_In p entries :
  In p (map fst entries) -> remove_entry p entries <> None.
Proof.
  induction entries as [|[q0 f0] rest IH]; simpl; [tauto|].
  destruct (String.eqb_spec p q0) as [->|Hne]; [discriminate|].
  intros [?|Hin]; [congruence|].
  specialize (IH Hin). now destruct (remove_entry p rest).
Qed.

(** X13.  An endpoint that refuses the connection is evicted and nothing
    else is: [call_endpoint] reports that the request is not finished, the
    descriptor at the endpoint's path is gone from the registry, every
    other descriptor is as it was, and no later scan returns that path. *)
Theorem refused_endpoint_is_evicted
    (env : environ) (req : request) (address path offset : string)
    (w : world) (entries : list (string * descriptor_file)) :
  rpc_endpoints w = Some entries ->
  NoDup (map fst entries) ->
  In path (map fst entries) ->
  dict_get String.eqb "offset" (query_dict req) = Some offset ->
  rpc_goto env w address (dict_get String.eqb "view" (query_dict req)) offset
  = RpcUnavailable ->
  exists entries',
    call_endpoint env req (JStr address, path) w
    = (Ret false, set_rpc_endpoints (Some entries') w)
    /\ ~ In path (map fst entries')
    /\ (forall q f, q <> path -> (In (q, f) entries' <-> In (q, f) entries))
    /\ (forall db_name file_hash a q,
           fst (find_rpc db_name file_hash
                  (set_rpc_endpoints (Some entries') w))
           = Ret (Some (a, q)) ->
           q <> path).
Proof.
  intros Hdir Hnd Hin Hoffset Hrpc.
  destruct (remove_entry path entries) as [entries'|] eqn:Hrm;
    [|now apply remove_entry_In in Hin].
  destruct (remove_entry_spec _ _ _ Hnd Hrm) as [Hout Hsame].
  exists entries'. split; [|split; [assumption|split; [assumption|]]].
  - unfold call_endpoint. rewrite Hoffset.
    unfold bind at 1, get at 1. rewrite Hrpc.
    unfold bind, unlink. now rewrite Hdir, Hrm.
  - intros db_name file_hash a q Hfind ->.
    unfold find_rpc, bind, get, lift in Hfind. simpl in Hfind.
    destruct (find_rpc_loop_Some _ _ _ _ _ Hfind) as (endpoint & Hfound & _).
    apply Hout. change path with (fst (path, DJson endpoint)).
    now apply in_map.
Qed.
End Eviction.

(** ** Artifact locator: the file list of the recency index *)

Section FileList.

Lemma scan_files_origin files db_name file_hash : forall w p w',
  scan_files files db_name file_hash w = (Ret (Some p), w') ->
  path_exists w p = true
  /\ (truthy_str db_name = true -> db_name = Some (path_name p))
  /\ exists item,
      In item files
      /\ (p = item
          \/ exists name,
              db_name = Some name
              /\ str_in (last_chars 3 (path_name item)) idb_exts = false
              /\ p = add_extension item (last_chars 4 name)).
Proof.
  induction files as [|item rest IH]; intros w p w'; cbn [scan_files].
  - discriminate.
  - cbv zeta. unfold bind at 1, get at 1.
    match goal with
    | |- context [path_exists w ?q] => set (candidate := q)
    end.
    assert (Hcand : candidate = item
                    \/ exists name,
                        db_name = Some name
                        /\ str_in (last_chars 3 (path_name item)) idb_exts
                           = false
                        /\ candidate = add_extension item (last_chars 4 name)).
    { unfold candidate. destruct db_name as [name|]; [|now left].
      destruct (truthy_str (Some name)); cbn [andb]; [|now left].
      destruct (str_in (last_chars 3 (path_name item)) idb_exts) eqn:E;
        cbn [negb]; [now left|].
      right. exists name. auto. }
    assert (Hrest : forall q w0,
               scan_files rest db_name file_hash w = (Ret (Some q), w0) ->
               path_exists w q = true
               /\ (truthy_str db_name = true -> db_name = Some (path_name q))
               /\ exists item0,
                   In item0 (item :: rest)
                   /\ (q = item0
                       \/ exists name,
                           db_name = Some name
                           /\ str_in (last_chars 3 (path_name item0)) idb_exts
                              = false
                           /\ q = add_extension item0 (last_chars 4 name))).
    { intros q w0 H. destruct (IH _ _ _ H) as (He & Hn & item0 & Hin & Hor).
      split; [assumption|]. split; [assumption|].
      exists item0. split; [now right | assumption]. }
    destruct (path_exists w candidate) eqn:Hex; cbn [negb]; [|apply Hrest].
    destruct (truthy_str db_name
              && negb (opt_eqb (Some (path_name candidate)) db_name)) eqn:Hn;
      [apply Hrest|].
    unfold bind.
    destruct (verify_db candidate file_hash w) as [[[|]| | |] w1] eqn:Hv;
      try discriminate; cbn [negb].
    + unfold ret. intros [= <- <-].
      split; [assumption|]. split.
      * intros Ht. rewrite Ht in Hn. cbn [andb] in Hn.
        apply negb_false_iff, opt_eqb_eq in Hn. now symmetry.
      * exists item. split; [now left | assumption].
    + apply verify_db_pure in Hv. subst w1. apply Hrest.
Qed.


End FileList.

(** ** Artifact locator: the search roots *)

Section SearchRoots.

Lemma verify_first_In candidates file_hash : forall w p w',
  verify_first candidates file_hash w = (Ret (Some p), w') ->
  In p candidates.
Proof.
  induction candidates as [|c rest IH]; intros w p w'; cbn [verify_first].
  - discriminate.
  - unfold bind.
    destruct (verify_db c file_hash w) as [[[|]| | |] w1] eqn:Hv;
      try discriminate; cbn [negb].
    + unfold ret. intros [= <-]. now left.
    + intros H. right. exact (IH _ _ _ H).
Qed.

Lemma search_roots_origin roots db_name file_hash : forall w p w',
  search_roots roots db_name file_hash w = (Ret (Some p), w') ->
  exists item,
    In item roots /\ path_exists w item = true /\ globbed w item db_name p.
Proof.
  induction roots as [|item rest IH]; intros w p w'; cbn [search_roots].
  - discriminate.
  - unfold bind at 1, modify at 1. unfold bind at 1, get at 1.
    set (w1 := set_idb_path (IdbMap rest) w).
    assert (Hrest : forall w0,
               search_roots rest db_name file_hash w1 = (Ret (Some p), w0) ->
               exists item0,
                 In item0 (item :: rest) /\ path_exists w item0 = true
                 /\ globbed w item0 db_name p).
    { intros w0 H. destruct (IH _ _ _ H) as (item0 & Hin & Hex & Hg).
      exists item0. split; [now right|]. split; assumption. }
    destruct (path_exists w1 item) eqn:Hex; cbn [negb]; [|apply Hrest].
    unfold bind at 1, get at 1. unfold bind at 1.
    match goal with
    | |- context [verify_first ?c file_hash w1] => set (candidates := c)
    end.
    destruct (verify_first candidates file_hash w1)
      as [[[q|]| | |] w2] eqn:Hv; try discriminate.
    + unfold ret. intros [= <- <-].
      apply verify_first_In in Hv.
      exists item. split; [now left|]. split; [assumption|].
      unfold globbed. unfold candidates in Hv.
      destruct db_name as [name|]; [destruct (truthy_str (Some name))|];
        try assumption; now apply in_app_or in Hv.
    + apply verify_first_pure in Hv. subst w2. apply Hrest.
Qed.

(** X16.  A path that [search_idb_path] returns was found under a
    configured root that exists: it is among the matches of that root's
    recursive glob, for the requested name when a name is given and for
    the two database extensions otherwise. *)
Theorem search_idb_path_is_globbed
    (db_name file_hash : option string) (w w' : world) (l : located) :
  search_idb_path db_name file_hash w = (Ret (Some l), w') ->
  exists roots item p,
    idb_path w = IdbList roots
    /\ l = PurePath p
    /\ In item roots
    /\ path_exists w item = true
    /\ globbed w item db_name p.
Proof.
  unfold search_idb_path, bind at 1, get at 1.
  destruct (idb_path w) as [[|r roots]|remaining] eqn:Hg; try discriminate.
  unfold bind, modify.
  set (w1 := set_idb_path (IdbMap (r :: roots)) w).
  destruct (search_roots (r :: roots) db_name file_hash w1)
    as [[[p|]| | |] w2] eqn:Hs; try discriminate.
  unfold ret. intros [= <- <-].
  destruct (search_roots_origin _ _ _ _ _ _ Hs) as (item & Hin & Hex & Hglob).
  exists (r :: roots), item, p. repeat split; assumption.
Qed.

Lemma search_roots_keeps_iterator roots db_name file_hash : forall w o w',
  (exists remaining, idb_path w = IdbMap remaining) ->
  search_roots roots db_name file_hash w = (o, w') ->
  exists remaining, idb_path w' = IdbMap remaining.
Proof.
  induction roots as [|item rest IH]; intros w o w' Hit; cbn [search_roots].
  - unfold ret. now intros [= _ <-].
  - unfold bind at 1, modify at 1. unfold bind at 1, get at 1.
    set (w1 := set_idb_path (IdbMap rest) w).
    assert (Hit1 : exists remaining, idb_path w1 = IdbMap remaining)
      by now exists rest.
    destruct (path_exists w1 item); cbn [negb]; [|now apply IH].
    unfold bind at 1, get at 1. unfold bind at 1.
    match goal with
    | |- context [verify_first ?c file_hash w1] => set (candidates := c)
    end.
    destruct (verify_first candidates file_hash w1)
      as [[[q|]|e|c|] w2] eqn:Hv;
      apply verify_first_pure in Hv; subst w2;
      try (intros [= _ <-]; assumption).
    now apply IH.
Qed.

(** X17.  [search_idb_path] can search the roots once.  A call that finds
    a non-empty list of roots in the global [idb_path] replaces it by the
    iterator it walks, whatever the call ends with; every later call ends
    with a [TypeError] at [len(idb_path)]. *)
Theorem search_idb_path_only_once
    (db_name file_hash : option string) (w w' : world)
    (o : outcome (option located)) (r : string) (roots : list string) :
  idb_path w = IdbList (r :: roots) ->
  search_idb_path db_name file_hash w = (o, w') ->
  (exists remaining, idb_path w' = IdbMap remaining)
  /\ forall db_name' file_hash',
      search_idb_path db_name' file_hash' w' = (Raise TypeError, w').
Proof.
  intros Hg Hcall.
  assert (Hit : exists remaining, idb_path w' = IdbMap remaining).
  { revert Hcall. unfold search_idb_path, bind at 1, get at 1. rewrite Hg.
    unfold bind, modify.
    set (w1 := set_idb_path (IdbMap (r :: roots)) w).
    destruct (search_roots (r :: roots) db_name file_hash w1)
      as [[res|e|c|] w2] eqn:Hs;
      (apply search_roots_keeps_iterator in Hs; [|now exists (r :: roots)]);
      unfold ret; now intros [= _ <-]. }
  split; [assumption|]. intros db_name' file_hash'.
  destruct Hit as [remaining Hit].
  unfold search_idb_path, bind, get. now rewrite Hit.
Qed.
End SearchRoots.

(** ** Artifact locator: the two tiers together *)

Section Located.

Lemma search_idb_Ret db_name file_hash w l w' :
  search_idb db_name file_hash w = (Ret l, w') ->
  (exists w1, search_history db_name file_hash w = (Ret (Some l), w1))
  \/ (exists w1, search_idb_path db_name file_hash w = (Ret (Some l), w1)).
Proof.
  unfold search_idb. cbv zeta. unfold bind at 1.
  destruct (search_history db_name file_hash w) as [[r| | |] w1] eqn:Hh;
    try discriminate.
  pose proof (search_history_pure _ _ _ _ _ Hh). subst w1.
  assert (Hlast : forall k : M located,
             k = (path <- search_idb_path db_name file_hash ;;
                  match path with
                  | Some l => ret l
                  | None => error_message 1
                  end) ->
             k w = (Ret l, w') ->
             exists w1,
               search_idb_path db_name file_hash w = (Ret (Some l), w1)).
  { intros k ->. unfold bind.
    destruct (search_idb_path db_name file_hash w)
      as [[[l1|]| | |] w2] eqn:Hp; try discriminate.
    unfold ret. intros [= <- <-]. now exists w2. }
  destruct r as [l0|]; [|intros H; right; now apply (Hlast _ eq_refl)].
  destruct (located_truthy l0);
    [|intros H; right; now apply (Hlast _ eq_refl)].
  unfold ret. intros [= <- <-]. left. now exists w.
Qed.


(** X19.  The host is launched only on a located database: when
    [launch_ida] returns, [search_idb] has returned a path, the launcher
    was given that path, and the path is verified by its computed hash or
    recorded with the requested hash in the hash table of the index. *)
Theorem launch_ida_launches_what_was_located
    (env : environ) (db_name file_hash : option string) (w w' : world) :
  launch_ida env db_name file_hash w = (Ret tt, w') ->
  exists l w1,
    search_idb db_name file_hash w = (Ret l, w1)
    /\ spawn env (path_text l) w1 = Some w'
    /\ platform_system env <> OtherPlatform
    /\ match l with
       | StrPath p => recorded w p file_hash
       | PurePath p => verified w p file_hash
       end.
Proof.
  unfold launch_ida, bind.
  destruct (search_idb db_name file_hash w) as [[l| | |] w1] eqn:Hs;
    try discriminate.
  intros H. exists l, w1. split; [reflexivity|].
  assert (Hwhere : match l with
                   | StrPath p => recorded w p file_hash
                   | PurePath p => verified w p file_hash
                   end).
  { destruct (search_idb_Ret _ _ _ _ _ Hs) as [[w2 Hh]|[w2 Hp]].
    - exact (search_history_Some _ _ _ _ _ Hh).
    - now destruct (search_idb_path_Some _ _ _ _ _ Hp) as (p & -> & Hv). }
  destruct (platform_system env); try discriminate;
    (destruct (spawn env (path_text l) w1) as [w2|] eqn:Hsp;
     [|discriminate]);
    injection H as <-; repeat split; try assumption; discriminate.
Qed.
End Located.

(** ** Resolution coordinator *)

Section Coordination.

(** X20.  A URL with another scheme than [ida] or [disas], or with no
    query, ends [run] with exit code -4 before the lock is touched: the
    world is as it was. *)
Theorem run_rejects_url (env : environ) (fuel : nat) (url : string)
    (w : world) :
  let parsed_url := urlparse env (unquote env url) in
  (scheme parsed_url <> "ida" /\ scheme parsed_url <> "disas")
  \/ query parsed_url = "" ->
  run env fuel url w = (Exit (-4), w).
Proof.
  intros parsed_url Hbad. unfold run, parse_request. fold parsed_url.
  unfold bind at 1. unfold bind at 1.
  destruct (String.eqb_spec (scheme parsed_url) "ida") as [Hida|Hida];
    destruct (String.eqb_spec (scheme parsed_url) "disas") as [Hdis|Hdis];
    cbn [orb negb];
    try (destruct Hbad as [[? ?]|Hq]; [contradiction|];
         unfold ret at 1; unfold bind at 1; rewrite Hq; reflexivity).
  reflexivity.
Qed.

(** The release that follows the caller's own claim. *)
Lemma release_after_claim env fuel r w locks :
  tmp_lock_file w = None ->
  NoDup (map fst locks) ->
  ~ In (str_of_int (getpid env)) (map fst locks) ->
  release_lock env fuel
    (set_lock_file
       (Some (LTable (locks ++ [(str_of_int (getpid env), r)]))) w)
  = (Ret tt, set_lock_file (Some (LTable locks)) w).
Proof.
  intros Htmp Hnd Hfresh.
  set (pid := str_of_int (getpid env)).
  set (claim := locks ++ [(pid, r)]).
  assert (Hclaim : NoDup (map fst claim)).
  { unfold claim. rewrite map_app. simpl.
    apply NoDup_app; [assumption | repeat constructor; simpl; tauto |].
    intros x Hx [<-|[]]. contradiction. }
  assert (Hget : dict_get String.eqb pid locks = None)
    by now apply dict_get_None.
  rewrite (release_lock_absent env fuel _ claim).
  - fold pid.
    assert (Hin : dict_mem String.eqb pid claim = true).
    { destruct (dict_mem String.eqb pid claim) eqn:E; [reflexivity|].
      apply dict_mem_false, dict_get_app_None in E. destruct E as [_ E].
      simpl in E. now rewrite String.eqb_refl in E. }
    rewrite Hin. unfold claim. rewrite dict_pop_last by assumption.
    now destruct w.
  - destruct w; assumption.
  - destruct w; simpl. now rewrite load_object_NoDup.
Qed.

Lemma find_rpc_same_registry db_name file_hash w1 w2 :
  rpc_endpoints w1 = rpc_endpoints w2 ->
  fst (find_rpc db_name file_hash w1) = fst (find_rpc db_name file_hash w2).
Proof.
  unfold find_rpc, bind, get, lift, ret. intros ->.
  now destruct (rpc_endpoints w2).
Qed.

Variables (env : environ) (fuel : nat) (url : string) (req : request).
Variables (w : world) (locks : list (string * row)).

Hypothesis parsed : parse_request env url w = (Ret req, w).
Hypothesis no_marker : tmp_lock_file w = None.
Hypothesis readable : table_of (lock_file w) = Some locks.
Hypothesis no_own_row : ~ In (str_of_int (getpid env)) (map fst locks).

Lemma run_claims :
  lock_search env fuel (db_name req) (file_hash req) w
  = (Ret tt, set_lock_file (Some (LTable (locks ++ [own_row env req]))) w)
  /\ table_of
       (lock_file
          (set_lock_file (Some (LTable (locks ++ [own_row env req]))) w))
     = Some (locks ++ [own_row env req])
  /\ NoDup (map fst locks).
Proof.
  pose proof (table_of_keys _ _ readable) as Hnd.
  split; [apply (lock_search_absent _ _ _ _ _ _ no_marker readable)|].
  split; [|assumption].
  destruct w; simpl. rewrite load_object_NoDup; [reflexivity|].
  rewrite map_app. simpl.
  apply NoDup_app; [assumption | repeat constructor; simpl; tauto |].
  intros x Hx [<-|[]]. contradiction.
Qed.

(** X21.  A request for a database that a reachable host has open: when
    nobody else claims the request, the registry has a descriptor for it
    and the endpoint answers, [run] returns after one call, without
    launching or polling, and the world is as before except that the lock
    table is now a file holding the rows it stood for: the caller's claim
    is gone again. *)
Theorem run_reaches_live_endpoint (address path offset : string) :
  (0 < fuel)%nat ->
  (forall pid, ~ In (pid, (db_name req, file_hash req)) locks) ->
  fst (find_rpc (db_name req) (file_hash req) w)
  = Ret (Some (JStr address, path)) ->
  dict_get String.eqb "offset" (query_dict req) = Some offset ->
  (forall w',
      rpc_goto env w' address (dict_get String.eqb "view" (query_dict req))
        offset = RpcOk) ->
  run env fuel url w = (Ret tt, set_lock_file (Some (LTable locks)) w).
Proof.
  intros Hfuel Halone Hfind Hoffset Hrpc.
  destruct run_claims as (Hclaim & Htab & Hnd).
  set (w1 := set_lock_file (Some (LTable (locks ++ [own_row env req]))) w) in *.
  unfold run. rewrite (bind_ret_eq _ _ _ _ _ parsed). unfold finally.
  rewrite (bind_ret_eq _ _ _ _ _ Hclaim).
  assert (Hown : In (own_row env req) (locks ++ [own_row env req]))
    by (apply in_or_app; right; now left).
  rewrite (bind_ret_eq _ _ w1 true w1).
  2:{ rewrite (check_lock_verdict env _ _ w1 _ _ Htab Hown).
      rewrite check_lock_loop_lowest; [reflexivity|].
      intros pid Hpid. apply in_app_or in Hpid.
      destruct Hpid as [Hpid|[[= <-]|[]]];
        [now apply Halone in Hpid | apply ltb_irrefl]. }
  cbn [negb]. rewrite (bind_ret_eq _ _ w1 tt w1) by reflexivity.
  destruct fuel as [|passes]; [lia|]. cbn [resolve_loop].
  assert (Hpass : resolve_once env (S passes) req w1 = (Ret true, w1)).
  { unfold resolve_once.
    rewrite (bind_ret_eq _ _ w1 (Some (JStr address, path)) w1).
    2:{ rewrite find_rpc_reads. f_equal.
        rewrite <- Hfind. now apply find_rpc_same_registry. }
    rewrite (bind_ret_eq _ _ w1 (JStr address, path) w1) by reflexivity.
    unfold call_endpoint. rewrite Hoffset. unfold bind, get.
    now rewrite Hrpc. }
  rewrite (bind_ret_eq _ _ _ _ _ Hpass).
  unfold ret, w1, own_row.
  now rewrite (release_after_claim env (S passes) _ w locks no_marker Hnd
                 no_own_row).
Qed.

(** X22.  The loser of the priority check gives its claim back: when
    another process holds a claim on the same request under an id that
    sorts below the caller's, [run] ends with the [RuntimeError] of a
    second request, nothing is looked up or launched, and the lock table
    holds the rows it held before the caller's claim. *)
Theorem run_loses_priority (other : string) :
  In (other, (db_name req, file_hash req)) locks ->
  String.ltb other (str_of_int (getpid env)) = true ->
  run env fuel url w
  = (Raise single_request, set_lock_file (Some (LTable locks)) w).
Proof.
  intros Hother Hlt.
  destruct run_claims as (Hclaim & Htab & Hnd).
  set (w1 := set_lock_file (Some (LTable (locks ++ [own_row env req]))) w) in *.
  unfold run. rewrite (bind_ret_eq _ _ _ _ _ parsed). unfold finally.
  rewrite (bind_ret_eq _ _ _ _ _ Hclaim).
  assert (Hown : In (own_row env req) (locks ++ [own_row env req]))
    by (apply in_or_app; right; now left).
  rewrite (bind_ret_eq _ _ w1 false w1).
  2:{ rewrite (check_lock_verdict env _ _ w1 _ _ Htab Hown).
      rewrite (check_lock_loop_outranked _ other); [reflexivity | | assumption].
      apply in_or_app. now left. }
  cbn [negb]. unfold bind at 1, raise at 1.
  unfold w1, own_row.
  now rewrite (release_after_claim env fuel _ w locks no_marker Hnd
                 no_own_row).
Qed.
End Coordination.

Section TopLevel.

(** X23.  No exception leaves [start]: every [Exception] raised below it
    becomes exit code -1, so the process ends by returning or with one of
    the exit codes 1, -1, -2, -3 and -4. *)
Theorem start_never_raises
    (env : environ) (fuel : nat) (argv : string) (w : world) :
  (forall e, fst (start env fuel argv w) <> Raise e)
  /\ (forall c, fst (start env fuel argv w) = Exit c -> In c client_codes).
Proof.
  split; [|intros c; apply exits_start].
  intros e. unfold start, except_exception.
  destruct ((load_settings env ;;; run env fuel argv) w) as [[[]|e'|c|] w1];
    discriminate.
Qed.
End TopLevel.

(** ** Worked instances of the further properties *)

(** Process 10 claims next to a row it left behind earlier. *)
Lemma lock_search_records_claim_witness :
  exists w' locks',
    lock_search (quiet_env 10) 0 (Some "test.i64") (Some "abc") stale_row
    = (Ret tt, w')
    /\ tmp_lock_file w' = None
    /\ table_of (lock_file w') = Some locks'
    /\ dict_get String.eqb (str_of_int (getpid (quiet_env 10))) locks'
       = Some (Some "test.i64", Some "abc")
    /\ (forall k, k <> str_of_int (getpid (quiet_env 10)) ->
                  dict_get String.eqb k locks'
                  = dict_get String.eqb k stale_rows).
Proof.
  apply (lock_search_records_claim (quiet_env 10) 0 (Some "test.i64")
           (Some "abc") stale_row); reflexivity.
Defined.

Lemma release_lock_removes_own_row_witness :
  exists w' locks',
    release_lock (quiet_env 10) 0 stale_row = (Ret tt, w')
    /\ tmp_lock_file w' = None
    /\ table_of (lock_file w') = Some locks'
    /\ dict_get String.eqb (str_of_int (getpid (quiet_env 10))) locks' = None
    /\ (forall k, k <> str_of_int (getpid (quiet_env 10)) ->
                  dict_get String.eqb k locks'
                  = dict_get String.eqb k stale_rows).
Proof.
  apply (release_lock_removes_own_row (quiet_env 10) 0 stale_row);
    reflexivity.
Defined.

Lemma corrupt_table_is_left_alone_witness :
  lock_search (quiet_env 10) 0 (Some "test.i64") (Some "abc") corrupt_table
  = (Raise JSONDecodeError, corrupt_table)
  /\ release_lock (quiet_env 10) 0 corrupt_table
     = (Raise JSONDecodeError, corrupt_table).
Proof.
  apply (corrupt_table_is_left_alone (quiet_env 10) 0 (Some "test.i64")
           (Some "abc") corrupt_table); reflexivity.
Defined.


(** Process 9 next to the claim of process 10. *)
Lemma check_lock_false_iff_outranked_witness :
  exists b,
    check_lock (quiet_env 9) (Some "test.i64") (Some "abc") two_claims
    = (Ret b, two_claims)
    /\ (b = false <->
        exists pid,
          In (pid, (Some "test.i64", Some "abc"))
            [("9", sample_row); ("10", sample_row)]
          /\ pid <> str_of_int (getpid (quiet_env 9))
          /\ String.ltb pid (str_of_int (getpid (quiet_env 9))) = true).
Proof.
  apply (check_lock_false_iff_outranked (quiet_env 9) (Some "test.i64")
           (Some "abc") two_claims [("9", sample_row); ("10", sample_row)]
           sample_row).
  - reflexivity.
  - vm_compute. left. reflexivity.
Defined.

Lemma claim_then_check_witness :
  exists b w',
    (lock_search (quiet_env 10) 0 (Some "test.i64") (Some "abc") ;;;
     check_lock (quiet_env 10) (Some "test.i64") (Some "abc")) stale_row
    = (Ret b, w')
    /\ ((forall pid,
            ~ In (pid, (Some "test.i64", Some "abc")) stale_rows) ->
        b = true).
Proof.
  apply (claim_then_check (quiet_env 10) 0 (Some "test.i64") (Some "abc")
           stale_row); reflexivity.
Defined.


Lemma not_exist_wait_zero_is_unbounded_witness :
  fst (not_exist_wait (quiet_env 10) 100 tmp_lock_exists (Some 0) wedged)
  = NoFuel.
Proof.
  apply (proj2 (not_exist_wait_zero_is_unbounded (quiet_env 10)
                  tmp_lock_exists 100 wedged)).
  - intros w H. exact H.
  - reflexivity.
Defined.

Lemma find_rpc_returns_a_match_witness :
  zombie_world = zombie_world
  /\ exists entries members,
      rpc_endpoints zombie_world = Some entries
      /\ In ("rpc_endpoints/4242", DJson (JObj members)) entries
      /\ json_get (JObj members) "address" = Ret (JStr "127.0.0.1:50051")
      /\ truthy (JStr "127.0.0.1:50051") = true
      /\ (exists v, json_get (JObj members) "file_hash" = Ret v
                    /\ json_eq_str v (Some "abc") = true)
      /\ (truthy_str (Some "test.i64") = true ->
          exists v, json_get (JObj members) "file_name" = Ret v
                    /\ json_eq_str v (Some "test.i64") = true).
Proof.
  apply (find_rpc_returns_a_match (Some "test.i64") (Some "abc") zombie_world
           zombie_world (JStr "127.0.0.1:50051") "rpc_endpoints/4242").
  reflexivity.
Defined.

(** The host's descriptor between an empty one and a broken one. *)
Lemma find_rpc_returns_first_match_witness :
  find_rpc (Some "test.i64") (Some "abc") mixed_registry
  = (Ret (Some dead_endpoint), mixed_registry).
Proof.
  apply (find_rpc_returns_first_match (Some "test.i64") (Some "abc")
           mixed_registry [("rpc_endpoints/0", DJson (JObj []))]
           [("rpc_endpoints/9", DUnparsable)] "rpc_endpoints/4242"
           sample_descriptor (JStr "127.0.0.1:50051")); reflexivity.
Defined.

Lemma poll_rpc_is_bounded_witness :
  exists o w',
    poll_rpc zombie_env 63 (Some "test.i64") (Some "abc") 32 claimed
    = (o, w')
    /\ o <> NoFuel
    /\ now claimed <= now w' <= now claimed + 63
    /\ (o = Ret None -> now w' = now claimed + 63)
    /\ (forall r, o = Ret (Some r) ->
                  now claimed < now w'
                  /\ fst (find_rpc (Some "test.i64") (Some "abc") w')
                     = Ret (Some r)).
Proof.
  apply (poll_rpc_is_bounded zombie_env (Some "test.i64") (Some "abc") 63
           claimed).
  lia.
Defined.

Lemma refused_endpoint_is_evicted_witness :
  exists entries',
    call_endpoint zombie_env sample_request
      (JStr "127.0.0.1:50051", "rpc_endpoints/4242") zombie_world
    = (Ret false, set_rpc_endpoints (Some entries') zombie_world)
    /\ ~ In "rpc_endpoints/4242" (map fst entries')
    /\ (forall q f, q <> "rpc_endpoints/4242" ->
                    (In (q, f) entries' <-> In (q, f) [dead_entry]))
    /\ (forall db_name file_hash a q,
           fst (find_rpc db_name file_hash
                  (set_rpc_endpoints (Some entries') zombie_world))
           = Ret (Some (a, q)) ->
           q <> "rpc_endpoints/4242").
Proof.
  apply (refused_endpoint_is_evicted zombie_env sample_request
           "127.0.0.1:50051" "rpc_endpoints/4242" "0x1000" zombie_world
           [dead_entry]).
  - reflexivity.
  - repeat constructor. simpl. tauto.
  - simpl. now left.
  - reflexivity.
  - reflexivity.
Defined.



Lemma search_idb_path_is_globbed_witness :
  exists roots item p,
    idb_path rooted = IdbList roots
    /\ PurePath sample_idb = PurePath p
    /\ In item roots
    /\ path_exists rooted item = true
    /\ globbed rooted item (Some "test.i64") p.
Proof.
  apply (search_idb_path_is_globbed (Some "test.i64") (Some "abc") rooted
           (set_idb_path (IdbMap []) rooted) (PurePath sample_idb)).
  reflexivity.
Defined.

(** The second search of the roots in one process. *)
Lemma search_idb_path_only_once_witness :
  (exists remaining,
      idb_path (set_idb_path (IdbMap []) rooted) = IdbMap remaining)
  /\ forall db_name' file_hash',
      search_idb_path db_name' file_hash' (set_idb_path (IdbMap []) rooted)
      = (Raise TypeError, set_idb_path (IdbMap []) rooted).
Proof.
  apply (search_idb_path_only_once (Some "test.i64") (Some "abc") rooted
           (set_idb_path (IdbMap []) rooted)
           (Ret (Some (PurePath sample_idb))) "/home/u" []); reflexivity.
Defined.

Lemma launch_ida_launches_what_was_located_witness :
  exists l w1,
    search_idb (Some "test.i64") (Some "abc") indexed = (Ret l, w1)
    /\ spawn client (path_text l) w1 = Some indexed
    /\ platform_system client <> OtherPlatform
    /\ match l with
       | StrPath p => recorded indexed p (Some "abc")
       | PurePath p => verified indexed p (Some "abc")
       end.
Proof.
  apply (launch_ida_launches_what_was_located client (Some "test.i64")
           (Some "abc") indexed indexed).
  reflexivity.
Defined.

Lemma run_rejects_url_witness :
  run client 1 "http://example.org/" quiet_world = (Exit (-4), quiet_world).
Proof.
  apply (run_rejects_url client 1 "http://example.org/" quiet_world).
  left. split; discriminate.
Defined.

(** The registry has the descriptor of a host that answers. *)
Lemma run_reaches_live_endpoint_witness :
  run client 1 sample_url zombie_world
  = (Ret tt, set_lock_file (Some (LTable [])) zombie_world).
Proof.
  apply (run_reaches_live_endpoint client 1 sample_url sample_request
           zombie_world [] eq_refl eq_refl eq_refl (fun H => H)
           "127.0.0.1:50051" "rpc_endpoints/4242" "0x1000").
  - lia.
  - intros pid H. exact H.
  - reflexivity.
  - reflexivity.
  - reflexivity.
Defined.

(** Process 9 asks for what process 10 is already resolving. *)
Lemma run_loses_priority_witness :
  run (quiet_env 9) 1 sample_url (claimed_by_10 quiet_world)
  = (Raise single_request,
     set_lock_file (Some (LTable [("10", sample_row)]))
       (claimed_by_10 quiet_world)).
Proof.
  apply (run_loses_priority (quiet_env 9) 1 sample_url sample_request
           (claimed_by_10 quiet_world) [("10", sample_row)]
           eq_refl eq_refl eq_refl) with (other := "10").
  - vm_compute. intros [H|[]]. discriminate H.
  - left. reflexivity.
  - reflexivity.
Defined.

Lemma start_never_raises_witness :
  In (-1) client_codes.
Proof.
  apply (proj2 (start_never_raises client 64 sample_url indexed) (-1)).
  vm_compute. reflexivity.
Defined.
